(** * lastexport: last.fm play-count export into an sqlite table

    A shallow embedding of [lastexport.py] (the beets plugin that pages
    through a user's last.fm top tracks and writes one play-count row per
    track into the [quicktag] table), together with the properties the
    specification states about it.

    Layout:
    - Python values: unicode strings, UTF-8, [zlib.crc32], [str(int)];
    - the world: the last.fm service, the sqlite connection, the log;
    - the program: [fetch_tracks], [process_tracks], [import_lastfm];
    - the properties. *)

From Stdlib Require Import ZArith NArith List String Ascii Bool Lia.
From Stdlib Require Import DecimalString DecimalZ DecimalPos.
Import ListNotations.

Local Open Scope string_scope.
Local Open Scope list_scope.
Local Open Scope Z_scope.

(* ================================================================== *)
(** ** Python values *)

(** *** Unicode strings

    A Python [str] is a sequence of code points.  The strings this program
    handles come out of an XML document, so they hold Unicode scalar values
    only (no lone surrogate); the type says so, which makes
    [str.encode('utf-8')] total. *)

Definition is_scalar (n : Z) : bool :=
  (0 <=? n) && ((n <? 0xD800) || ((0xDFFF <? n) && (n <? 0x110000))).

Record uchar : Type := UChar { code : Z; code_scalar : is_scalar code = true }.

Definition pystr : Type := list uchar.

Definition mk_uchar (n : Z) : option uchar :=
  match is_scalar n as b return is_scalar n = b -> option uchar with
  | true => fun H => Some (UChar n H)
  | false => fun _ => None
  end eq_refl.

Definition NUL : uchar := UChar 0 eq_refl.

Definition uchar_of_ascii (a : ascii) : uchar :=
  match mk_uchar (Z.of_N (N_of_ascii a)) with
  | Some c => c
  | None => NUL
  end.

(** A Rocq string literal read as a Python string (one code point per
    character, Latin-1). *)
Fixpoint u (s : string) : pystr :=
  match s with
  | EmptyString => []
  | String a s' => uchar_of_ascii a :: u s'
  end.

(** [str.isspace] on one code point: the characters CPython's
    [_PyUnicode_IsWhitespace] accepts. *)
Definition is_space (c : uchar) : bool :=
  let n := code c in
  ((0x09 <=? n) && (n <=? 0x0D)) || ((0x1C <=? n) && (n <=? 0x20))
  || (n =? 0x85) || (n =? 0xA0) || (n =? 0x1680)
  || ((0x2000 <=? n) && (n <=? 0x200A))
  || (n =? 0x2028) || (n =? 0x2029) || (n =? 0x202F) || (n =? 0x205F)
  || (n =? 0x3000).

Fixpoint lstrip (s : pystr) : pystr :=
  match s with
  | [] => []
  | c :: s' => if is_space c then lstrip s' else s
  end.

Definition rstrip (s : pystr) : pystr := rev (lstrip (rev s)).

(** [s.strip()] *)
Definition strip (s : pystr) : pystr := rstrip (lstrip s).

(** *** Bytes and UTF-8

    A [bytes] object is a list of octets, each a [Z] in [0, 256). *)

Definition bytes : Type := list Z.

Definition utf8_char (c : uchar) : bytes :=
  let n := code c in
  if n <? 0x80 then [n]
  else if n <? 0x800 then
    [Z.lor 0xC0 (Z.shiftr n 6); Z.lor 0x80 (Z.land n 0x3F)]
  else if n <? 0x10000 then
    [Z.lor 0xE0 (Z.shiftr n 12);
     Z.lor 0x80 (Z.land (Z.shiftr n 6) 0x3F);
     Z.lor 0x80 (Z.land n 0x3F)]
  else
    [Z.lor 0xF0 (Z.shiftr n 18);
     Z.lor 0x80 (Z.land (Z.shiftr n 12) 0x3F);
     Z.lor 0x80 (Z.land (Z.shiftr n 6) 0x3F);
     Z.lor 0x80 (Z.land n 0x3F)].

(** [s.encode('utf-8')] *)
Definition encode_utf8 (s : pystr) : bytes := flat_map utf8_char s.

(** *** zlib.crc32

    The CRC-32 of zlib (reflected polynomial [0xEDB88320], initial value and
    final xor [0xFFFFFFFF]), one bit at a time.  Python 3 returns it as an
    unsigned integer, Python 2 as a signed 32-bit one. *)

Definition crc32_bit (crc : Z) : Z :=
  if Z.testbit crc 0 then Z.lxor (Z.shiftr crc 1) 0xEDB88320
  else Z.shiftr crc 1.

Definition crc32_byte (crc b : Z) : Z :=
  Nat.iter 8 crc32_bit (Z.lxor crc b).

Definition crc32 (data : bytes) : Z :=
  Z.lxor (fold_left crc32_byte data 0xFFFFFFFF) 0xFFFFFFFF.

(** The signed reading of the same 32 bits (what Python 2 returns). *)
Definition crc32_signed (data : bytes) : Z :=
  let c := crc32 data in
  if c <? 0x80000000 then c else c - 0x100000000.

(** *** str(int) *)

Definition str (n : Z) : string := NilZero.string_of_int (Z.to_int n).

(** [range(a, b)] *)
Definition range (a b : Z) : list Z :=
  map (fun i => a + Z.of_nat i) (seq 0 (Z.to_nat (b - a))).

(** [len(l)] *)
Definition len {A : Type} (l : list A) : Z := Z.of_nat (List.length l).

(* ================================================================== *)
(** ** The world the program runs in *)

(** *** last.fm

    What [pylast] hands back for one track of a top-tracks page (a
    [TopItem]: the track and its weight), and what one call of
    [get_top_tracks_by_page] can do: return the tracks of the page together
    with the [totalPages] attribute of the response, or raise. *)

Record top_item : Type := TopItem {
  item_mbid : option pystr;
  item_artist : pystr;
  item_title : pystr;
  weight : Z
}.

Inductive pylast_error : Type :=
| WSError (status : Z) (details : string)
| NetworkError (details : string)
| MalformedResponseError (details : string).

Inductive reply : Type :=
| Reply (results : list top_item) (total_pages : Z)
| Failure (e : pylast_error).

(** The service: the reply to the [n]-th request of the run, given the
    user, the page and the page size asked for. *)
Definition service : Type := nat -> string -> Z -> Z -> reply.

(** *** The track dictionaries built by [fetch_tracks] *)

Record track : Type := Track {
  mbid : pystr;
  artist : pystr;          (* tracks[num]['artist']['name'] *)
  name : pystr;
  playcount : Z;           (* the number pylast read; int() leaves it as it is *)
  album : option pystr     (* tracks[num]['album']['name'], when present *)
}.

(** *** The quicktag table *)

Record row : Type := Row {
  url : string;
  subsong : string;
  fieldname : string;
  value : string
}.

Definition table : Type := list row.

(** Modelled from the spec: the schema of the [quicktag] table, which lives
    in the database file and not in the repository.  The spec (section 3)
    keys a row by (url, subsong, fieldname). *)
Definition same_key (a b : row) : bool :=
  (url a =? url b)%string && (subsong a =? subsong b)%string
  && (fieldname a =? fieldname b)%string.

(** [INSERT OR REPLACE]: the rows in conflict with the new one on the key
    are deleted, then the new row is inserted. *)
Definition insert_or_replace (r : row) (t : table) : table :=
  filter (fun x => negb (same_key r x)) t ++ [r].

(** The rows of a table stored under a key. *)
Definition rows_at (k : row) (t : table) : list row := filter (same_key k) t.

(** *** Log and trace *)

Inductive message : Type :=
| MsgFetching (user : string)
| MsgQuerying (page : Z) (of_total : option Z)
| MsgUnableToRead (page : Z)
| MsgRetrying (page attempt limit : Z)
| MsgFailed (page tried : Z)
| MsgReceived (total : Z)
| MsgQueryAlbum (artist title album : pystr)
| MsgQueryKey (artist title : pystr) (key : Z)
| MsgDone
| MsgFinished (pages : Z)
| MsgUnknown (n : Z)
| MsgImported (n : Z).

Inductive level : Type := Debug | Info | Error.

Inductive event : Type :=
| Log (l : level) (m : message)
| Connect (path : string)
| Request (page limit : Z) (r : reply)
| Execute (r : row)
| Input (prompt : string)
| Commit
| Close.

(** *** State *)

Inductive handle : Type := NoHandle | Open | Closed.

Record world : Type := World {
  served : nat;        (* requests the service has answered so far *)
  conn : handle;       (* the sqlite connection *)
  pending : table;     (* the table as the connection sees it *)
  stored : table       (* the table in the database file *)
}.

Inductive exn : Type :=
| UserError (msg : string)
| PylastError (e : pylast_error).

Inductive outcome (A : Type) : Type :=
| Returned (a : A)
| Raised (e : exn)
| OutOfFuel.
Arguments Returned {A} a.
Arguments Raised {A} e.
Arguments OutOfFuel {A}.

(** A computation: from a world to an outcome, the events it emitted (oldest
    first) and the world it leaves. *)
Definition M (A : Type) : Type := world -> outcome A * list event * world.

Definition result {A} (x : outcome A * list event * world) : outcome A :=
  fst (fst x).
Definition trace {A} (x : outcome A * list event * world) : list event :=
  snd (fst x).
Definition final {A} (x : outcome A * list event * world) : world := snd x.

Definition ret {A} (a : A) : M A := fun w => (Returned a, [], w).

Definition raise {A} (e : exn) : M A := fun w => (Raised e, [], w).

Definition bind {A B} (m : M A) (f : A -> M B) : M B :=
  fun w =>
    match m w with
    | (Returned a, t1, w1) =>
        let '(r, t2, w2) := f a w1 in (r, t1 ++ t2, w2)
    | (Raised e, t1, w1) => (Raised e, t1, w1)
    | (OutOfFuel, t1, w1) => (OutOfFuel, t1, w1)
    end.

Declare Scope prog_scope.
Delimit Scope prog_scope with prog.
Notation "x <- m ;; k" := (bind m (fun x => k))
  (at level 61, m at next level, right associativity) : prog_scope.
Notation "' p <- m ;; k" := (bind m (fun p => k))
  (at level 61, p pattern, m at next level, right associativity) : prog_scope.
Notation "m ;; k" := (bind m (fun _ => k))
  (at level 61, right associativity) : prog_scope.

Definition emit (e : event) : M unit := fun w => (Returned tt, [e], w).

Definition log (l : level) (m : message) : M unit := emit (Log l m).

(** [sqlite3.connect(path)] and [conn.cursor()]; the file is taken to open
    and to hold the table. *)
Definition connect (path : string) : M unit :=
  fun w => (Returned tt, [Connect path],
            World (served w) Open (stored w) (stored w)).

(** [c.execute('INSERT OR REPLACE ...')] on the cursor of the open
    connection *)
Definition execute (r : row) : M unit :=
  fun w => (Returned tt, [Execute r],
            World (served w) (conn w) (insert_or_replace r (pending w)) (stored w)).

(** [conn.commit()] *)
Definition commit : M unit :=
  fun w => (Returned tt, [Commit],
            World (served w) (conn w) (pending w) (pending w)).

(** [conn.close()] *)
Definition close : M unit :=
  fun w => (Returned tt, [Close],
            World (served w) Closed (stored w) (stored w)).

(** [input(prompt)]: blocks until the user answers (the user is taken to
    answer); the answer is dropped. *)
Definition input (prompt : string) : M unit := emit (Input prompt).

(** The configuration the plugin reads. *)
Record config : Type := Config {
  user : string;
  per_page : Z;
  sqlite3_custom_db : string;
  retry_limit : Z
}.

(* ================================================================== *)
(** ** The program *)

Section Program.

Local Open Scope prog_scope.

(** [str.lower] is the Unicode lower-casing of the Python runtime. *)
Variable str_lower : pystr -> pystr.

Variable lastfm : service.

(** [user_obj.get_top_tracks_by_page(limit=limit, page=page)] *)
Definition get_top_tracks_by_page (usr : string) (limit page : Z)
  : M (list top_item * Z) :=
  fun w =>
    let r := lastfm (served w) usr page limit in
    let w' := World (S (served w)) (conn w) (pending w) (stored w) in
    match r with
    | Reply results total_pages =>
        (Returned (results, total_pages), [Request page limit r], w')
    | Failure e => (Raised (PylastError e), [Request page limit r], w')
    end.

Definition track_of_item (t : top_item) : track :=
  {| mbid := match item_mbid t with
             | Some m => match m with [] => [] | _ :: _ => m end
             | None => []
             end;
     artist := item_artist t;
     name := item_title t;
     playcount := weight t;
     album := None |}.

Definition fetch_tracks (usr : string) (page limit : Z) : M (list track * Z) :=
  '(results, total_pages) <- get_top_tracks_by_page usr limit page ;;
  ret (map track_of_item results, total_pages).

(** The key of a track: the three lines of [process_tracks] that compute
    [artist_title]. *)
Definition fingerprint (artist title : pystr) : Z :=
  let at_ := str_lower artist ++ str_lower title in
  let at_ := encode_utf8 at_ in
  Z.land (crc32 at_) 0xffffffff.

Definition quicktag_row (artist_title play_count : Z) : row :=
  {| url := str artist_title;
     subsong := "-1";
     fieldname := "LASTFM_PLAYCOUNT_DB";
     value := str play_count |}.

(** One turn of the loop of [process_tracks]. *)
Definition process_track (t : track) : M unit :=
  let artist := strip (artist t) in
  let title := strip (name t) in
  let play_count := playcount t in
  let album := match album t with Some a => strip a | None => [] end in
  log Debug (MsgQueryAlbum artist title album) ;;
  let artist_title := fingerprint artist title in
  log Debug (MsgQueryKey artist title artist_title) ;;
  execute (quicktag_row artist_title play_count).

(** [for num in range(0, total): ...], on the tracks still to come. *)
Fixpoint process_loop (tracks : list track) (total_found : Z) : M Z :=
  match tracks with
  | [] => ret total_found
  | t :: rest =>
      process_track t ;;
      process_loop rest (total_found + 1)
  end.

Definition process_tracks (tracks : list track) : M (Z * Z) :=
  let total := len tracks in
  let total_fails := 0 in
  log Info (MsgReceived total) ;;
  total_found <- process_loop tracks 0 ;;
  ret (total_found, total_fails).

Variable cfg : config.

(** The counters [import_lastfm] carries around its loops. *)
Record counters : Type := Counters {
  page_total : Z;
  found_total : Z;
  unknown_total : Z
}.

(** [for retry in range(0, retry_limit): ...], on the retries still to
    come. *)
Fixpoint retry_loop (retries : list Z) (page_current : Z) (c : counters)
  : M counters :=
  match retries with
  | [] => ret c
  | retry :: rest =>
      '(tracks, page_total) <-
         fetch_tracks (user cfg) (page_current + 1) (per_page cfg) ;;
      let c := Counters page_total (found_total c) (unknown_total c) in
      if page_total <? 1 then
        raise (UserError "Last.fm reported no data.")
      else
        match tracks with
        | _ :: _ =>
            '(found, unknown) <- process_tracks tracks ;;
            ret (Counters page_total (found_total c + found)
                          (unknown_total c + unknown))
        | [] =>
            log Error (MsgUnableToRead (page_current + 1)) ;;
            (if retry <? retry_limit cfg then
               log Info (MsgRetrying (page_current + 1) (retry + 1)
                                     (retry_limit cfg))
             else
               log Error (MsgFailed page_current (retry + 1))) ;;
            retry_loop rest page_current c
        end
  end.

(** [while page_current < page_total: ...]; every turn costs one unit of
    fuel. *)
Fixpoint page_loop (fuel : nat) (page_current : Z) (c : counters)
  : M counters :=
  if page_current <? page_total c then
    match fuel with
    | O => fun w => (OutOfFuel, [], w)
    | S fuel' =>
        log Info (MsgQuerying (page_current + 1)
                    (if 1 <? page_total c then Some (page_total c) else None)) ;;
        c' <- retry_loop (range 0 (retry_limit cfg)) page_current c ;;
        page_loop fuel' (page_current + 1) c'
    end
  else ret c.

Definition import_lastfm (fuel : nat) : M unit :=
  match user cfg with
  | EmptyString =>
      raise (UserError "You must specify a user name for lastexport")
  | String _ _ =>
      log Info (MsgFetching (user cfg)) ;;
      connect (sqlite3_custom_db cfg) ;;
      c <- page_loop fuel 0 (Counters 1 0 0) ;;
      input ("Please close any programs currently accessing " ++
             "the database before continuing.")%string ;;
      commit ;;
      close ;;
      log Info MsgDone ;;
      log Info (MsgFinished (page_total c)) ;;
      log Info (MsgUnknown (unknown_total c)) ;;
      log Info (MsgImported (found_total c))
  end.

End Program.

(* ================================================================== *)
(** ** Reading a run *)

(** The pages requested, the rows written and the replies received, in the
    order of the trace. *)
Fixpoint requests (tr : list event) : list Z :=
  match tr with
  | [] => []
  | Request page _ _ :: tr' => page :: requests tr'
  | _ :: tr' => requests tr'
  end.

Fixpoint writes (tr : list event) : list row :=
  match tr with
  | [] => []
  | Execute r :: tr' => r :: writes tr'
  | _ :: tr' => writes tr'
  end.

(** What a reply does to the run that receives it: [Some e] when it ends
    the run with [e]. *)
Definition verdict (r : reply) : option exn :=
  match r with
  | Failure e => Some (PylastError e)
  | Reply _ total_pages =>
      if total_pages <? 1 then Some (UserError "Last.fm reported no data.")
      else None
  end.

(** A list without its adjacent repetitions. *)
Fixpoint squash (l : list Z) : list Z :=
  match l with
  | [] => []
  | x :: l' =>
      match l' with
      | [] => [x]
      | y :: _ => if x =? y then squash l' else x :: squash l'
      end
  end.


(** The world before the run: no connection yet, [db] in the file. *)
Definition boot (db : table) : world := World 0 NoHandle [] db.

(** *** A lower-casing to run examples with

    [str.lower] restricted to ASCII: what Python computes on strings of
    ASCII characters. *)

Definition ascii_lower_char (c : uchar) : uchar :=
  if (0x41 <=? code c) && (code c <=? 0x5A) then
    match mk_uchar (code c + 0x20) with
    | Some c' => c'
    | None => c
    end
  else c.

Definition ascii_lower (s : pystr) : pystr := map ascii_lower_char s.

Definition is_ascii (s : pystr) : bool := forallb (fun c => code c <? 0x80) s.

(** *** Services to run examples with *)

Definition item (a t : string) (plays : Z) : top_item :=
  TopItem None (u a) (u t) plays.

(** A service whose reply depends on the page only. *)
Definition paged (pages : Z -> list top_item) (total : Z -> Z) : service :=
  fun _ _ page _ => Reply (pages page) (total page).

Definition alice : config := Config "alice" 2 "quicktag.db" 1.

Definition sexy_boy : service :=
  paged (fun _ => [item "Air" "Sexy Boy" 10; item "Air" "Sexy Boy" 10])
        (fun _ => 1).

Definition no_data : service := paged (fun _ => []) (fun _ => 0).

Definition offline : service :=
  fun _ _ _ _ => Failure (NetworkError "connection refused").

(** Three pages, the second always empty. *)
Definition gap_pages (p : Z) : list top_item :=
  if p =? 1 then [item "Air" "Sexy Boy" 10; item "Can" "Vitamin C" 7]
  else if p =? 3 then [item "Neu!" "Hallogallo" 4]
  else [].
Definition gap : service := paged gap_pages (fun _ => 3).

(** Page 1 announces five pages, page 2 only two. *)
Definition shrinking : service :=
  paged (fun p => [item "Air" "Sexy Boy" p])
        (fun p => if p =? 1 then 5 else 2).

(** A service that always has one more page. *)
Definition endless : service :=
  paged (fun p => [item "Air" "Sexy Boy" p]) (fun p => p + 1).

(** *** What the loops leave behind *)

(** The row [process_tracks] writes for a track. *)
Definition row_of (lower : pystr -> pystr) (t : track) : row :=
  quicktag_row (fingerprint lower (strip (artist t)) (strip (name t)))
               (playcount t).

(** The table after the rows of a page have been written, in order. *)
Definition upsert_all (lower : pystr -> pystr) (tracks : list track)
  (tb : table) : table :=
  fold_left (fun tb t => insert_or_replace (row_of lower t) tb) tracks tb.

(** The events of one turn of the loop of [process_tracks], and of all its
    turns. *)
Definition track_trace (lower : pystr -> pystr) (t : track) : list event :=
  let a := strip (artist t) in
  let n := strip (name t) in
  [Log Debug (MsgQueryAlbum a n
                (match album t with Some x => strip x | None => [] end));
   Log Debug (MsgQueryKey a n (fingerprint lower a n));
   Execute (row_of lower t)].

Definition process_trace (lower : pystr -> pystr) (tracks : list track)
  : list event :=
  flat_map (track_trace lower) tracks.

(** The events of an attempt that got an empty page. *)
Definition empty_attempt (cfg : config) (page_current retry : Z) (r : reply)
  : list event :=
  [Request (page_current + 1) (per_page cfg) r;
   Log Error (MsgUnableToRead (page_current + 1));
   if retry <? retry_limit cfg then
     Log Info (MsgRetrying (page_current + 1) (retry + 1) (retry_limit cfg))
   else Log Error (MsgFailed page_current (retry + 1))].

(** The events after the page loop: the prompt, the commit, the report. *)
Definition finale (c : counters) : list event :=
  [Input "Please close any programs currently accessing the database before continuing.";
   Commit; Close;
   Log Info MsgDone;
   Log Info (MsgFinished (page_total c));
   Log Info (MsgUnknown (unknown_total c));
   Log Info (MsgImported (found_total c))].

Definition querying (page_current : Z) (c : counters) : event :=
  Log Info (MsgQuerying (page_current + 1)
              (if 1 <? page_total c then Some (page_total c) else None)).

(** *** Properties of traces *)

(** The events the page loop can emit under a configuration. *)
Definition loop_event (cfg : config) (e : event) : Prop :=
  match e with
  | Log Info (MsgQuerying _ _) => True
  | Log Info (MsgReceived _) => True
  | Log Debug (MsgQueryAlbum _ _ _) => True
  | Log Debug (MsgQueryKey _ _ _) => True
  | Log Error (MsgUnableToRead _) => True
  | Log Info (MsgRetrying _ attempt limit) =>
      limit = retry_limit cfg /\ 1 <= attempt <= limit
  | Request _ _ _ => True
  | Execute _ => True
  | _ => False
  end.

(** Every report of an unreadable page is followed at once by the
    announcement of a retry. *)
Definition retried (cfg : config) (tr : list event) : Prop :=
  forall pre page post,
    tr = pre ++ Log Error (MsgUnableToRead page) :: post ->
    exists attempt post',
      post = Log Info (MsgRetrying page attempt (retry_limit cfg)) :: post'
      /\ 1 <= attempt <= retry_limit cfg.

Definition is_unable (e : event) : Prop :=
  match e with
  | Log Error (MsgUnableToRead _) => True
  | _ => False
  end.

(** No request of the trace got a reply that ends the run. *)
Definition clean (tr : list event) : Prop :=
  forall page limit r, In (Request page limit r) tr -> verdict r = None.

(** The trace ends on a request whose reply ends the run with [e], and no
    earlier request got such a reply. *)
Definition ends_fatally (tr : list event) (e : exn) : Prop :=
  exists pre page limit r,
    tr = pre ++ [Request page limit r] /\ clean pre /\ verdict r = Some e.

Definition judged {A : Type} (x : outcome A * list event * world) : Prop :=
  clean (trace x)
  \/ exists e, result x = Raised e /\ ends_fatally (trace x) e.

(** "A transport error of one attempt never aborts the run": no run under
    this service and configuration ends on an exception of [pylast]. *)
Definition contained (lower : pystr -> pystr) (lastfm : service)
  (cfg : config) : Prop :=
  forall fuel w e,
    result (import_lastfm lower lastfm cfg fuel w) <> Raised (PylastError e).

(** A track with another play count. *)
Definition with_playcount (t : track) (plays : Z) : track :=
  Track (mbid t) (artist t) (name t) plays (album t).



(** The total page count of the latest reply in a trace, [default] when no
    request was answered with a page. *)
Fixpoint last_total (tr : list event) (default : Z) : Z :=
  match tr with
  | [] => default
  | Request _ _ (Reply _ total_pages) :: tr' => last_total tr' total_pages
  | _ :: tr' => last_total tr' default
  end.

(** *** The ledger of a run *)

(** The table after a list of rows has been written, in order. *)
Definition replay (rows : list row) (tb : table) : table :=
  fold_left (fun tb r => insert_or_replace r tb) rows tb.

(** The tracks the service delivered: the items of the replies that carry a
    page count of at least 1, in the order of the trace. *)
Fixpoint delivered (tr : list event) : list top_item :=
  match tr with
  | [] => []
  | Request _ _ (Reply results total_pages) :: tr' =>
      (if total_pages <? 1 then [] else results) ++ delivered tr'
  | _ :: tr' => delivered tr'
  end.

(** The row written for an item of a reply. *)
Definition row_of_item (lower : pystr -> pystr) (i : top_item) : row :=
  row_of lower (track_of_item i).

(** The last of the rows written under a key. *)
Fixpoint last_at (k : row) (rows : list row) : option row :=
  match rows with
  | [] => None
  | r :: rows' =>
      match last_at k rows' with
      | Some r' => Some r'
      | None => if same_key k r then Some r else None
      end
  end.

(** What the page loop lets an event be: a request is made for a page from
    1 on with the configured page size, and a page is received with one
    track at least. *)
Definition sound_event (cfg : config) (e : event) : Prop :=
  match e with
  | Request page limit _ => 1 <= page /\ limit = per_page cfg
  | Log _ (MsgReceived total) => 1 <= total
  | Log _ (MsgQuerying page _) => 1 <= page
  | _ => True
  end.

(** The turns of the page loop a trace shows: every turn opens with its
    "Querying page" message. *)
Fixpoint turns (tr : list event) : Z :=
  match tr with
  | [] => 0
  | Log _ (MsgQuerying _ _) :: tr' => 1 + turns tr'
  | _ :: tr' => turns tr'
  end.

(** A trace that keeps to the loop test, read from a point where [pc] turns
    were begun and [total] is the page count in force: a turn begins only
    while [pc < total] and announces page [pc + 1]; a request is for the
    page of the turn running, and its reply sets the page count. *)
Fixpoint follows (pc total : Z) (tr : list event) : Prop :=
  match tr with
  | [] => True
  | Log _ (MsgQuerying page _) :: tr' =>
      pc < total /\ page = pc + 1 /\ follows (pc + 1) total tr'
  | Request page _ (Reply _ total_pages) :: tr' =>
      page = pc /\ follows pc total_pages tr'
  | Request page _ (Failure _) :: tr' => page = pc /\ follows pc total tr'
  | _ :: tr' => follows pc total tr'
  end.

(** The key as the specification words it: CRC-32 of the UTF-8 bytes of
    lower(artist) followed by lower(title), reduced to 32 unsigned bits. *)
Definition fingerprint_spec (lower : pystr -> pystr) (artist title : pystr) : Z :=
  crc32 (encode_utf8 (lower artist ++ lower title)) mod 2 ^ 32.

(* ================================================================== *)
(** ** Python values: facts *)

Lemma mask32 (x : Z) : Z.land x 0xffffffff = x mod 2 ^ 32.
Proof.
  change 0xffffffff with (Z.ones 32).
  apply Z.land_ones. lia.
Qed.

(** *** Octets and 32-bit words *)

Lemma lxor_below (n a b : Z) :
  0 <= n -> 0 <= a < 2 ^ n -> 0 <= b < 2 ^ n -> 0 <= Z.lxor a b < 2 ^ n.
Proof.
  intros Hn Ha Hb.
  assert (0 <= Z.lxor a b) as Hpos by (apply Z.lxor_nonneg; lia).
  split; [exact Hpos|].
  destruct (Z.eq_dec (Z.lxor a b) 0) as [E|E]; [rewrite E; lia|].
  apply Z.log2_lt_pow2; [lia|].
  eapply Z.le_lt_trans; [apply Z.log2_lxor; lia|].
  apply Z.max_lub_lt.
  - destruct (Z.eq_dec a 0) as [->|Na].
    + simpl. destruct (Z.eq_dec n 0) as [->|]; [|lia].
      assert (b = 0) as -> by (simpl in Hb; lia). now simpl in E.
    + apply Z.log2_lt_pow2; lia.
  - destruct (Z.eq_dec b 0) as [->|Nb].
    + simpl. destruct (Z.eq_dec n 0) as [->|]; [|lia].
      assert (a = 0) as -> by (simpl in Ha; lia). now simpl in E.
    + apply Z.log2_lt_pow2; lia.
Qed.

Lemma lor_below (n a b : Z) :
  0 <= n -> 0 <= a < 2 ^ n -> 0 <= b < 2 ^ n -> 0 <= Z.lor a b < 2 ^ n.
Proof.
  intros Hn Ha Hb.
  assert (0 <= Z.lor a b) as Hpos by (apply Z.lor_nonneg; lia).
  split; [exact Hpos|].
  destruct (Z.eq_dec (Z.lor a b) 0) as [E|E]; [rewrite E; lia|].
  apply Z.log2_lt_pow2; [lia|].
  rewrite Z.log2_lor by lia.
  apply Z.max_lub_lt.
  - destruct (Z.eq_dec a 0) as [->|Na].
    + simpl. destruct (Z.eq_dec n 0) as [->|]; [|lia].
      assert (b = 0) as -> by (simpl in Hb; lia). now simpl in E.
    + apply Z.log2_lt_pow2; lia.
  - destruct (Z.eq_dec b 0) as [->|Nb].
    + simpl. destruct (Z.eq_dec n 0) as [->|]; [|lia].
      assert (a = 0) as -> by (simpl in Ha; lia). rewrite Z.lor_0_r in E. lia.
    + apply Z.log2_lt_pow2; lia.
Qed.

Lemma shiftr_below (x k bound : Z) :
  0 <= k -> 0 <= x < bound * 2 ^ k -> 0 <= Z.shiftr x k < bound.
Proof.
  intros Hk Hx. rewrite Z.shiftr_div_pow2 by exact Hk.
  assert (0 < 2 ^ k) by (apply Z.pow_pos_nonneg; lia).
  split.
  - apply Z.div_pos; lia.
  - apply Z.div_lt_upper_bound; lia.
Qed.

Lemma low6_below (x : Z) : 0 <= Z.land x 0x3F < 0x40.
Proof.
  change 0x3F with (Z.ones 6). rewrite Z.land_ones by lia.
  apply Z.mod_pos_bound. reflexivity.
Qed.

Lemma continuation_octet (x : Z) : 0 <= Z.lor 0x80 (Z.land x 0x3F) < 256.
Proof.
  pose proof (low6_below x).
  apply (lor_below 8); lia.
Qed.

Lemma code_range (c : uchar) : 0 <= code c < 0x110000.
Proof.
  pose proof (code_scalar c) as H. unfold is_scalar in H.
  apply andb_true_iff in H. destruct H as [H0 H1].
  apply Z.leb_le in H0. split; [exact H0|].
  apply orb_true_iff in H1. destruct H1 as [H1|H1].
  - apply Z.ltb_lt in H1. lia.
  - apply andb_true_iff in H1. destruct H1 as [_ H1].
    apply Z.ltb_lt in H1. exact H1.
Qed.

(** [encode] yields octets. *)
Lemma utf8_char_octets (c : uchar) :
  Forall (fun b => 0 <= b < 256) (utf8_char c).
Proof.
  pose proof (code_range c) as Hc. unfold utf8_char. cbv zeta.
  destruct (code c <? 0x80) eqn:E1.
  { apply Z.ltb_lt in E1. repeat constructor; lia. }
  apply Z.ltb_ge in E1.
  destruct (code c <? 0x800) eqn:E2.
  { apply Z.ltb_lt in E2.
    pose proof (shiftr_below (code c) 6 0x20 ltac:(lia) ltac:(lia)).
    repeat constructor; try apply continuation_octet;
      apply (lor_below 8); lia. }
  apply Z.ltb_ge in E2.
  destruct (code c <? 0x10000) eqn:E3.
  { apply Z.ltb_lt in E3.
    pose proof (shiftr_below (code c) 12 0x10 ltac:(lia) ltac:(lia)).
    repeat constructor; try apply continuation_octet;
      apply (lor_below 8); lia. }
  apply Z.ltb_ge in E3.
  pose proof (shiftr_below (code c) 18 0x8 ltac:(lia) ltac:(lia)).
  repeat constructor; try apply continuation_octet;
    apply (lor_below 8); lia.
Qed.

Lemma encode_utf8_octets (s : pystr) :
  Forall (fun b => 0 <= b < 256) (encode_utf8 s).
Proof.
  unfold encode_utf8. induction s as [|c s IH]; simpl.
  - constructor.
  - apply Forall_app. split; [apply utf8_char_octets | exact IH].
Qed.

Lemma crc32_bit_word (crc : Z) : 0 <= crc < 2 ^ 32 -> 0 <= crc32_bit crc < 2 ^ 32.
Proof.
  intros H. unfold crc32_bit.
  pose proof (shiftr_below crc 1 (2 ^ 31) ltac:(lia) ltac:(lia)) as S.
  destruct (Z.testbit crc 0).
  - apply (lxor_below 32); lia.
  - lia.
Qed.

Lemma crc32_byte_word (crc b : Z) :
  0 <= crc < 2 ^ 32 -> 0 <= b < 256 -> 0 <= crc32_byte crc b < 2 ^ 32.
Proof.
  intros Hc Hb. unfold crc32_byte.
  assert (0 <= Z.lxor crc b < 2 ^ 32) as H by (apply (lxor_below 32); lia).
  generalize 8%nat. intros n. induction n as [|n IH]; simpl.
  - exact H.
  - apply crc32_bit_word. exact IH.
Qed.

(** On octets, [crc32] is an unsigned 32-bit integer. *)
Lemma crc32_word (data : bytes) :
  Forall (fun b => 0 <= b < 256) data -> 0 <= crc32 data < 2 ^ 32.
Proof.
  intros H. unfold crc32.
  apply (lxor_below 32); [lia | | lia].
  assert (0 <= 0xFFFFFFFF < 2 ^ 32) as Hinit by lia.
  revert Hinit. generalize 0xFFFFFFFF.
  induction H as [|b data Hb _ IH]; intros crc Hcrc; simpl.
  - exact Hcrc.
  - apply IH. now apply crc32_byte_word.
Qed.

(** The mask leaves the unsigned CRC of Python 3 as it is, and turns the
    signed CRC of Python 2 into it. *)
Lemma mask_crc32 (data : bytes) :
  Forall (fun b => 0 <= b < 256) data ->
  Z.land (crc32 data) 0xffffffff = crc32 data
  /\ Z.land (crc32_signed data) 0xffffffff = crc32 data.
Proof.
  intros H. pose proof (crc32_word data H) as W.
  rewrite !mask32. unfold crc32_signed. cbv zeta. split.
  - apply Z.mod_small. exact W.
  - destruct (crc32 data <? 0x80000000).
    + apply Z.mod_small. exact W.
    + replace (crc32 data - 0x100000000)
        with (crc32 data + (-1) * 2 ^ 32) by lia.
      rewrite Z.mod_add by lia. apply Z.mod_small. exact W.
Qed.

Lemma len_cons {A : Type} (x : A) (l : list A) : len (x :: l) = len l + 1.
Proof. unfold len. simpl List.length. lia. Qed.

Lemma len_nonneg {A : Type} (l : list A) : 0 <= len l.
Proof. unfold len. lia. Qed.

Lemma mk_uchar_code (n : Z) (c : uchar) : mk_uchar n = Some c -> code c = n.
Proof.
  unfold mk_uchar.
  generalize (eq_refl (is_scalar n)).
  generalize (is_scalar n) at 2 3.
  intros [] H E; [ injection E as <-; reflexivity | discriminate ].
Qed.

Lemma ascii_lower_char_idem (c : uchar) :
  ascii_lower_char (ascii_lower_char c) = ascii_lower_char c.
Proof.
  unfold ascii_lower_char at 2 3.
  destruct ((0x41 <=? code c) && (code c <=? 0x5A)) eqn:Up.
  - destruct (mk_uchar (code c + 0x20)) as [c'|] eqn:Mk.
    + apply mk_uchar_code in Mk.
      unfold ascii_lower_char. rewrite Mk.
      replace ((0x41 <=? code c + 0x20) && (code c + 0x20 <=? 0x5A)) with false;
        [ reflexivity | ].
      apply andb_true_iff in Up. destruct Up as [Lo Hi].
      apply Z.leb_le in Lo. apply Z.leb_le in Hi.
      symmetry. apply andb_false_iff. right. apply Z.leb_gt. lia.
    + unfold ascii_lower_char. rewrite Up, Mk. reflexivity.
  - unfold ascii_lower_char. rewrite Up. reflexivity.
Qed.

Lemma ascii_lower_idem (s : pystr) : ascii_lower (ascii_lower s) = ascii_lower s.
Proof.
  unfold ascii_lower. rewrite map_map.
  apply map_ext. exact ascii_lower_char_idem.
Qed.

(* ================================================================== *)
(** ** The fingerprint *)

Section Fingerprint.

Variable lower : pystr -> pystr.

Lemma fingerprint_meets_spec (a t : pystr) :
  fingerprint lower a t = fingerprint_spec lower a t.
Proof.
  unfold fingerprint, fingerprint_spec. apply mask32.
Qed.

Lemma fingerprint_unsigned (a t : pystr) : 0 <= fingerprint lower a t < 2 ^ 32.
Proof.
  rewrite fingerprint_meets_spec. unfold fingerprint_spec.
  apply Z.mod_pos_bound. lia.
Qed.

(** On Python 3 the key is the CRC itself. *)
Lemma fingerprint_crc32 (a t : pystr) :
  fingerprint lower a t = crc32 (encode_utf8 (lower a ++ lower t)).
Proof.
  unfold fingerprint. apply mask_crc32, encode_utf8_octets.
Qed.

Lemma process_track_writes (t : track) (w : world) :
  writes (snd (fst (process_track lower t w))) =
  [quicktag_row (fingerprint lower (strip (artist t)) (strip (name t)))
                (playcount t)].
Proof. reflexivity. Qed.

End Fingerprint.

(** C1.  The key written for a track is the CRC-32 of the UTF-8 bytes of
    the lower-cased artist followed by the lower-cased title (both as
    [process_tracks] trimmed them), within the unsigned 32-bit range; hence
    the key of a pair is the key of the lower-cased pair, for instance for
    "Radiohead", "Creep".  [lower] is the lower-casing of the Python
    runtime, of which the proof uses that lower-casing twice is lower-casing
    once and that ASCII strings are lower-cased letter by letter. *)
Theorem fingerprint_is_crc32_of_lowered
  (lower : pystr -> pystr)
  (lower_idem : forall s, lower (lower s) = lower s)
  (lower_ascii : forall s, is_ascii s = true -> lower s = ascii_lower s) :
  (forall (t : track) (w : world),
      exists r,
        writes (snd (fst (process_track lower t w))) = [r] /\
        url r = str (fingerprint_spec lower (strip (artist t)) (strip (name t))))
  /\ (forall a t, fingerprint lower a t = fingerprint_spec lower a t
                  /\ 0 <= fingerprint lower a t < 2 ^ 32)
  /\ (forall a t, fingerprint lower a t = fingerprint lower (lower a) (lower t))
  /\ fingerprint lower (u "Radiohead") (u "Creep")
     = fingerprint lower (u "radiohead") (u "creep").
Proof.
  repeat split.
  - intros t w. eexists. split.
    + apply process_track_writes.
    + simpl. now rewrite fingerprint_meets_spec.
  - apply fingerprint_meets_spec.
  - apply fingerprint_unsigned.
  - apply fingerprint_unsigned.
  - intros a t. unfold fingerprint. now rewrite !lower_idem.
  - unfold fingerprint.
    rewrite !lower_ascii by reflexivity.
    reflexivity.
Qed.

Lemma fingerprint_is_crc32_of_lowered_witness :
  fingerprint ascii_lower (u "Radiohead") (u "Creep") = 4057835554
  /\ fingerprint ascii_lower (u "radiohead") (u "creep") = 4057835554.
Proof.
  pose proof (fingerprint_is_crc32_of_lowered ascii_lower ascii_lower_idem
                (fun s _ => eq_refl)) as (_ & _ & _ & E).
  split.
  - rewrite E. vm_compute. reflexivity.
  - vm_compute. reflexivity.
Defined.

(* ================================================================== *)
(** ** The loops, one turn at a time *)

Section Runs.

Variable lower : pystr -> pystr.
Variable lastfm : service.
Variable cfg : config.

Local Abbreviation retry_loop := (retry_loop lower lastfm cfg).
Local Abbreviation page_loop := (page_loop lower lastfm cfg).

Lemma process_loop_run (tracks : list track) (n : Z) (w : world) :
  process_loop lower tracks n w =
  (Returned (n + len tracks), process_trace lower tracks,
   World (served w) (conn w) (upsert_all lower tracks (pending w)) (stored w)).
Proof.
  revert n w. induction tracks as [|t tracks IH]; intros n w.
  - simpl. unfold ret, len. simpl. rewrite Z.add_0_r. now destruct w.
  - simpl process_loop. unfold bind at 1.
    unfold process_track, bind, log, emit, execute. simpl.
    rewrite IH. simpl.
    rewrite len_cons.
    replace (n + 1 + len tracks) with (n + (len tracks + 1)) by lia.
    reflexivity.
Qed.

Lemma process_tracks_run (tracks : list track) (w : world) :
  process_tracks lower tracks w =
  (Returned (len tracks, 0),
   Log Info (MsgReceived (len tracks)) :: process_trace lower tracks,
   World (served w) (conn w) (upsert_all lower tracks (pending w)) (stored w)).
Proof.
  unfold process_tracks, bind, log, emit. simpl.
  rewrite process_loop_run. simpl.
  now rewrite app_nil_r.
Qed.

(** One turn of the retry loop. *)
Lemma retry_loop_cons (retry : Z) (rest : list Z) (pc : Z) (c : counters)
  (w : world) :
  retry_loop (retry :: rest) pc c w =
  let r := lastfm (served w) (user cfg) (pc + 1) (per_page cfg) in
  let w1 := World (S (served w)) (conn w) (pending w) (stored w) in
  match r with
  | Failure e =>
      (Raised (PylastError e), [Request (pc + 1) (per_page cfg) r], w1)
  | Reply results total =>
      if total <? 1 then
        (Raised (UserError "Last.fm reported no data."),
         [Request (pc + 1) (per_page cfg) r], w1)
      else
        match results with
        | _ :: _ =>
            let tracks := map track_of_item results in
            (Returned (Counters total (found_total c + len tracks)
                                (unknown_total c + 0)),
             Request (pc + 1) (per_page cfg) r
               :: Log Info (MsgReceived (len tracks))
               :: process_trace lower tracks,
             World (S (served w)) (conn w)
                   (upsert_all lower tracks (pending w)) (stored w))
        | [] =>
            let '(o, tr, w') :=
              retry_loop rest pc
                (Counters total (found_total c) (unknown_total c)) w1 in
            (o, empty_attempt cfg pc retry r ++ tr, w')
        end
  end.
Proof.
  simpl retry_loop. unfold bind at 1. unfold fetch_tracks, bind at 1.
  unfold get_top_tracks_by_page. cbv zeta.
  destruct (lastfm (served w) (user cfg) (pc + 1) (per_page cfg))
    as [results total|e]; [|reflexivity].
  unfold ret at 1. cbv beta iota zeta.
  destruct (total <? 1); [reflexivity|].
  destruct results as [|x xs].
  - unfold empty_attempt. cbn [map].
    unfold bind, log, emit.
    destruct (retry <? retry_limit cfg); cbv beta iota zeta;
      destruct (retry_loop rest pc
                  (Counters total (found_total c) (unknown_total c))
                  (World (S (served w)) (conn w) (pending w) (stored w)))
        as [[o tr] w2]; reflexivity.
  - remember (map track_of_item (x :: xs)) as tracks eqn:Etracks.
    assert (tracks <> []) as Hne by (subst; discriminate).
    destruct tracks as [|t ts]; [congruence|].
    unfold bind at 1. rewrite process_tracks_run. cbv beta iota zeta.
    unfold ret. simpl. rewrite app_nil_r. reflexivity.
Qed.

Lemma retry_loop_nil (pc : Z) (c : counters) (w : world) :
  retry_loop [] pc c w = (Returned c, [], w).
Proof. reflexivity. Qed.

(** One turn of the page loop. *)
Lemma page_loop_stop (fuel : nat) (pc : Z) (c : counters) (w : world) :
  page_total c <= pc -> page_loop fuel pc c w = (Returned c, [], w).
Proof.
  intros H. destruct fuel; simpl;
    (replace (pc <? page_total c) with false by (symmetry; apply Z.ltb_ge; lia));
    reflexivity.
Qed.

Lemma page_loop_starved (pc : Z) (c : counters) (w : world) :
  pc < page_total c -> page_loop 0 pc c w = (OutOfFuel, [], w).
Proof.
  intros H. simpl.
  replace (pc <? page_total c) with true by (symmetry; apply Z.ltb_lt; lia).
  reflexivity.
Qed.

Lemma page_loop_turn (fuel : nat) (pc : Z) (c : counters) (w : world) :
  pc < page_total c ->
  page_loop (S fuel) pc c w =
  let '(o, tr, w1) := retry_loop (range 0 (retry_limit cfg)) pc c w in
  match o with
  | Returned c' =>
      let '(o2, tr2, w2) := page_loop fuel (pc + 1) c' w1 in
      (o2, querying pc c :: tr ++ tr2, w2)
  | Raised e => (Raised e, querying pc c :: tr, w1)
  | OutOfFuel => (OutOfFuel, querying pc c :: tr, w1)
  end.
Proof.
  intros H. simpl page_loop.
  replace (pc <? page_total c) with true by (symmetry; apply Z.ltb_lt; lia).
  unfold bind at 1, log at 1, emit at 1. unfold bind at 1.
  destruct (retry_loop (range 0 (retry_limit cfg)) pc c w) as [[[c'|e|] tr] w1];
    try reflexivity.
  destruct (page_loop fuel (pc + 1) c' w1) as [[o2 tr2] w2].
  reflexivity.
Qed.

(** The whole run around the page loop. *)
Lemma import_lastfm_run (fuel : nat) (w : world) :
  user cfg <> "" ->
  import_lastfm lower lastfm cfg fuel w =
  let '(o, tr, w1) :=
    page_loop fuel 0 (Counters 1 0 0)
              (World (served w) Open (stored w) (stored w)) in
  match o with
  | Returned c =>
      (Returned tt,
       Log Info (MsgFetching (user cfg)) :: Connect (sqlite3_custom_db cfg)
         :: tr ++ finale c,
       World (served w1) Closed (pending w1) (pending w1))
  | Raised e =>
      (Raised e,
       Log Info (MsgFetching (user cfg)) :: Connect (sqlite3_custom_db cfg)
         :: tr, w1)
  | OutOfFuel =>
      (OutOfFuel,
       Log Info (MsgFetching (user cfg)) :: Connect (sqlite3_custom_db cfg)
         :: tr, w1)
  end.
Proof.
  intros Hu. unfold import_lastfm.
  destruct (user cfg) as [|a usr] eqn:Eu; [congruence|].
  unfold bind at 1, log at 1, emit at 1.
  unfold bind at 1, connect at 1. cbv beta iota zeta. simpl served. simpl stored.
  unfold bind at 1.
  destruct (page_loop fuel 0 (Counters 1 0 0)
              (World (served w) Open (stored w) (stored w)))
    as [[[c|e|] tr] w1]; reflexivity.
Qed.

Lemma import_lastfm_no_user (fuel : nat) (w : world) :
  user cfg = "" ->
  import_lastfm lower lastfm cfg fuel w =
  (Raised (UserError "You must specify a user name for lastexport"), [], w).
Proof.
  intros Hu. unfold import_lastfm. rewrite Hu. reflexivity.
Qed.

End Runs.

(* ================================================================== *)
(** ** What every run does *)

Lemma in_range (a b x : Z) : In x (range a b) <-> a <= x < b.
Proof.
  unfold range. rewrite in_map_iff. split.
  - intros (i & <- & Hi). apply in_seq in Hi. lia.
  - intros H. exists (Z.to_nat (x - a)). split; [lia|].
    apply in_seq. lia.
Qed.

Lemma range_empty (a b : Z) : b <= a -> range a b = [].
Proof.
  intros H. unfold range. replace (Z.to_nat (b - a)) with O by lia. reflexivity.
Qed.

Lemma range_cons (a b : Z) : a < b -> range a b = a :: range (a + 1) b.
Proof.
  intros H. unfold range.
  replace (Z.to_nat (b - a)) with (S (Z.to_nat (b - (a + 1)))) by lia.
  simpl seq. simpl map. f_equal; [lia|].
  rewrite <- seq_shift, map_map.
  apply map_ext. intros i. lia.
Qed.

Lemma retried_nil (cfg : config) : retried cfg [].
Proof. intros [|e pre] page post H; discriminate. Qed.

Lemma retried_app (cfg : config) (t1 t2 : list event) :
  retried cfg t1 -> retried cfg t2 -> retried cfg (t1 ++ t2).
Proof.
  intros H1 H2 pre page post E.
  apply app_eq_app in E. destruct E as (l & [[E1 E2] | [E1 E2]]).
  - destruct l as [|e l].
    + simpl in E2. symmetry in E2. apply (H2 [] page post E2).
    + injection E2 as <- ->.
      destruct (H1 pre page l E1) as (attempt & post' & -> & Hk).
      exists attempt, (post' ++ t2). split; [reflexivity | exact Hk].
  - apply (H2 l page post E2).
Qed.

Lemma retried_cons (cfg : config) (e : event) (tr : list event) :
  ~ is_unable e -> retried cfg tr -> retried cfg (e :: tr).
Proof.
  intros He H pre page post E.
  destruct pre as [|e' pre].
  - injection E as -> _. exfalso. apply He. exact I.
  - injection E as _ E. apply (H pre page post E).
Qed.

Lemma retried_quiet (cfg : config) (tr : list event) :
  Forall (fun e => ~ is_unable e) tr -> retried cfg tr.
Proof.
  induction 1 as [|e tr He _ IH].
  - apply retried_nil.
  - now apply retried_cons.
Qed.

Section Invariants.

Variable lower : pystr -> pystr.
Variable lastfm : service.
Variable cfg : config.

Local Abbreviation retry_loop := (retry_loop lower lastfm cfg).
Local Abbreviation page_loop := (page_loop lower lastfm cfg).

Lemma process_trace_alphabet (tracks : list track) :
  Forall (loop_event cfg) (process_trace lower tracks).
Proof.
  unfold process_trace. induction tracks as [|t tracks IH]; simpl.
  - constructor.
  - repeat constructor. exact IH.
Qed.

Lemma process_trace_quiet (tracks : list track) :
  Forall (fun e => ~ is_unable e) (process_trace lower tracks).
Proof.
  unfold process_trace. induction tracks as [|t tracks IH]; simpl.
  - constructor.
  - repeat (constructor; [simpl; tauto|]). exact IH.
Qed.

Lemma process_trace_writes (tracks : list track) :
  writes (process_trace lower tracks) = map (row_of lower) tracks.
Proof.
  unfold process_trace. induction tracks as [|t tracks IH]; simpl.
  - reflexivity.
  - now rewrite IH.
Qed.

Lemma process_trace_requests (tracks : list track) :
  requests (process_trace lower tracks) = [].
Proof.
  unfold process_trace. induction tracks as [|t tracks IH]; simpl; auto.
Qed.

(** The retry loop, whatever the service answers: the events it emits, what
    it leaves of the connection and of the counters. *)
Lemma retry_loop_invariant (retries : list Z) (pc : Z) (c : counters)
  (w : world) :
  Forall (fun retry => 0 <= retry < retry_limit cfg) retries ->
  let x := retry_loop retries pc c w in
  Forall (loop_event cfg) (trace x)
  /\ retried cfg (trace x)
  /\ conn (final x) = conn w
  /\ stored (final x) = stored w
  /\ result x <> OutOfFuel
  /\ (forall c', result x = Returned c' ->
        unknown_total c' = unknown_total c
        /\ found_total c <= found_total c').
Proof.
  intros Hr. revert c w.
  induction Hr as [|retry rest Hretry _ IH]; intros c w.
  - rewrite retry_loop_nil. simpl. repeat split; try constructor; try easy.
    + apply retried_nil.
    + injection H as <-. reflexivity.
    + injection H as <-. lia.
  - rewrite retry_loop_cons. cbv zeta.
    destruct (lastfm (served w) (user cfg) (pc + 1) (per_page cfg))
      as [results total|e].
    2:{ simpl. repeat split; try easy.
        - repeat constructor.
        - apply retried_quiet. repeat constructor. simpl. tauto. }
    destruct (total <? 1).
    { simpl. repeat split; try easy.
      - repeat constructor.
      - apply retried_quiet. repeat constructor. simpl. tauto. }
    destruct results as [|item items].
    + specialize (IH (Counters total (found_total c) (unknown_total c))
                     (World (S (served w)) (conn w) (pending w) (stored w))).
      destruct (retry_loop rest pc _ _) as [[o tr] w'].
      unfold trace, result, final in IH; cbn [fst snd] in IH.
      destruct IH as (Ha & Hp & Hc & Hs & Hf & Hu).
      unfold trace, result, final; cbn [fst snd].
      repeat split; try assumption.
      * unfold empty_attempt.
        replace (retry <? retry_limit cfg) with true
          by (symmetry; apply Z.ltb_lt; lia).
        repeat constructor; simpl; try lia. exact Ha.
      * unfold empty_attempt.
        replace (retry <? retry_limit cfg) with true
          by (symmetry; apply Z.ltb_lt; lia).
        apply retried_cons; [simpl; tauto|].
        intros pre page post E.
        destruct pre as [|e0 pre].
        -- injection E as <- <-.
           exists (retry + 1), tr. split; [reflexivity | lia].
        -- injection E as _ E.
           destruct pre as [|e1 pre]; [discriminate|].
           injection E as _ E. apply (Hp pre page post E).
      * apply Hu in H. cbn [unknown_total found_total] in H. tauto.
      * apply Hu in H. cbn [unknown_total found_total] in H. tauto.
    + unfold trace, result, final; cbn [fst snd].
      repeat split; try easy.
      * constructor; [exact I|]. constructor; [exact I|].
        apply process_trace_alphabet.
      * apply retried_cons; [simpl; tauto|].
        apply retried_cons; [simpl; tauto|].
        apply retried_quiet, process_trace_quiet.
      * injection H as <-. simpl. lia.
      * injection H as <-. cbn [found_total].
        pose proof (len_nonneg (track_of_item item :: map track_of_item items)).
        lia.
Qed.

Lemma range_retries :
  Forall (fun retry => 0 <= retry < retry_limit cfg) (range 0 (retry_limit cfg)).
Proof. apply Forall_forall. intros x Hx. now apply in_range in Hx. Qed.

Lemma page_loop_invariant (fuel : nat) (pc : Z) (c : counters) (w : world) :
  let x := page_loop fuel pc c w in
  Forall (loop_event cfg) (trace x)
  /\ retried cfg (trace x)
  /\ conn (final x) = conn w
  /\ stored (final x) = stored w
  /\ (forall c', result x = Returned c' ->
        unknown_total c' = unknown_total c
        /\ found_total c <= found_total c').
Proof.
  revert pc c w. induction fuel as [|fuel IH]; intros pc c w.
  - destruct (Z.lt_ge_cases pc (page_total c)) as [Lt|Ge].
    + rewrite page_loop_starved by exact Lt. simpl.
      repeat split; try constructor; try easy. apply retried_nil.
    + rewrite page_loop_stop by exact Ge. simpl.
      repeat split; try constructor; try easy.
      * apply retried_nil.
      * injection H as <-. reflexivity.
      * injection H as <-. lia.
  - destruct (Z.lt_ge_cases pc (page_total c)) as [Lt|Ge].
    + rewrite page_loop_turn by exact Lt.
      pose proof (retry_loop_invariant (range 0 (retry_limit cfg)) pc c w
                    range_retries) as R.
      destruct (retry_loop (range 0 (retry_limit cfg)) pc c w)
        as [[[c1|e|] tr] w1]; unfold trace, result, final in R;
        cbn [fst snd] in R; destruct R as (Ra & Rp & Rc & Rs & Rf & Ru).
      * specialize (IH (pc + 1) c1 w1).
        destruct (page_loop fuel (pc + 1) c1 w1) as [[o2 tr2] w2].
        unfold trace, result, final in IH; cbn [fst snd] in IH.
        destruct IH as (Ia & Ip & Ic & Is & Iu).
        unfold trace, result, final; cbn [fst snd].
        destruct (Ru c1 eq_refl) as [Ru1 Ru2].
        repeat split; try congruence.
        -- constructor; [exact I|]. apply Forall_app. now split.
        -- apply retried_cons; [simpl; tauto|]. now apply retried_app.
        -- apply Iu in H. destruct H. congruence.
        -- apply Iu in H. destruct H. lia.
      * unfold trace, result, final; cbn [fst snd].
        repeat split; try easy.
        -- constructor; [exact I|]. exact Ra.
        -- apply retried_cons; [simpl; tauto|]. exact Rp.
      * congruence.
    + rewrite page_loop_stop by exact Ge. simpl.
      repeat split; try constructor; try easy.
      * apply retried_nil.
      * injection H as <-. reflexivity.
      * injection H as <-. lia.
Qed.

End Invariants.

(** The shape of the trace of a whole run: nothing at all when no user is
    configured; otherwise the opening, the events of the page loop and, when
    the loop returned, the finale on its counters. *)
Lemma import_lastfm_shape (lower : pystr -> pystr) (lastfm : service)
  (cfg : config) (fuel : nat) (w : world) :
  let x := import_lastfm lower lastfm cfg fuel w in
  (user cfg = "" /\ trace x = [] /\ final x = w
   /\ result x = Raised (UserError "You must specify a user name for lastexport"))
  \/ (user cfg <> "" /\
      exists tr,
        Forall (loop_event cfg) tr /\ retried cfg tr /\
        ((result x <> Returned tt /\ conn (final x) = Open /\
          stored (final x) = stored w /\
          trace x = Log Info (MsgFetching (user cfg))
                      :: Connect (sqlite3_custom_db cfg) :: tr)
         \/ (exists c,
               result x = Returned tt /\ conn (final x) = Closed /\
               unknown_total c = 0 /\ 0 <= found_total c /\
               trace x = Log Info (MsgFetching (user cfg))
                           :: Connect (sqlite3_custom_db cfg)
                           :: tr ++ finale c))).
Proof.
  intros x. subst x.
  destruct (string_dec (user cfg) "") as [Hu|Hu].
  - left. rewrite import_lastfm_no_user by exact Hu. repeat split; auto.
  - right. split; [exact Hu|].
    rewrite import_lastfm_run by exact Hu.
    pose proof (page_loop_invariant lower lastfm cfg fuel 0 (Counters 1 0 0)
                  (World (served w) Open (stored w) (stored w))) as P.
    destruct (page_loop lower lastfm cfg fuel 0 (Counters 1 0 0)
                (World (served w) Open (stored w) (stored w)))
      as [[[c|e|] tr] w1]; unfold trace, result, final in *;
      cbn [fst snd conn stored unknown_total found_total] in *;
      destruct P as (Pa & Pr & Pc & Ps & Pu); exists tr;
      (split; [exact Pa|]); (split; [exact Pr|]).
    + right. exists c.
      destruct (Pu c eq_refl) as [U F]. repeat split; auto.
    + left. repeat split; auto. discriminate.
    + left. repeat split; auto. discriminate.
Qed.

(* ================================================================== *)
(** ** Counting records *)

(** C8.  [process_tracks] returns as found count the number of records it
    was given, having written one row for each, and 0 as unknown count; and
    the unknown total a run reports is 0, in every run. *)
Theorem every_record_found_none_unknown (lower : pystr -> pystr) :
  (forall tracks w,
      let x := process_tracks lower tracks w in
      result x = Returned (len tracks, 0)
      /\ writes (trace x) = map (row_of lower) tracks)
  /\ (forall lastfm cfg fuel w n,
        In (Log Info (MsgUnknown n))
           (trace (import_lastfm lower lastfm cfg fuel w)) ->
        n = 0)
  /\ (forall lastfm cfg fuel w,
        result (import_lastfm lower lastfm cfg fuel w) = Returned tt ->
        In (Log Info (MsgUnknown 0))
           (trace (import_lastfm lower lastfm cfg fuel w))).
Proof.
  split; [|split].
  - intros tracks w x. subst x. rewrite process_tracks_run.
    unfold result, trace; cbn [fst snd]. split; [reflexivity|].
    cbn [writes]. apply process_trace_writes.
  - intros lastfm cfg fuel w n Hin.
    destruct (import_lastfm_shape lower lastfm cfg fuel w)
      as [(_ & E & _) | (_ & tr & Ha & _ & [(_ & _ & _ & E) | (c & _ & _ & U & _ & E)])];
      rewrite E in Hin.
    + destruct Hin.
    + destruct Hin as [Hin|[Hin|Hin]]; try discriminate.
      rewrite Forall_forall in Ha. apply Ha in Hin. destruct Hin.
    + destruct Hin as [Hin|[Hin|Hin]]; try discriminate.
      apply in_app_or in Hin. destruct Hin as [Hin|Hin].
      * rewrite Forall_forall in Ha. apply Ha in Hin. destruct Hin.
      * unfold finale in Hin. simpl in Hin.
        repeat (destruct Hin as [Hin|Hin]; try discriminate).
        -- injection Hin as <-. exact U.
        -- destruct Hin.
  - intros lastfm cfg fuel w R.
    destruct (import_lastfm_shape lower lastfm cfg fuel w)
      as [(_ & _ & _ & E) | (_ & tr & _ & _ & [(N & _) | (c & _ & _ & U & _ & E)])].
    + rewrite E in R. discriminate.
    + contradiction.
    + rewrite E. right. right. apply in_or_app. right.
      unfold finale. rewrite U. simpl. tauto.
Qed.

Lemma every_record_found_none_unknown_witness :
  In (Log Info (MsgUnknown 0))
     (trace (import_lastfm ascii_lower sexy_boy alice 1 (boot [])))
  /\ ~ In (Log Info (MsgUnknown 1))
         (trace (import_lastfm ascii_lower gap alice 3 (boot []))).
Proof.
  destruct (every_record_found_none_unknown ascii_lower) as (_ & Zero & Said).
  split.
  - apply Said. vm_compute. reflexivity.
  - intros H. apply Zero in H. discriminate.
Defined.

(* ================================================================== *)
(** ** The exhaustion report *)

(** C9.  The loop variable of the retry loop stays below the retry limit,
    so the guard [retry < retry_limit] holds at every attempt; no run ever
    logs the "FAIL ... tried N times" report, and every "unable to read
    page" error, the one of the last allowed attempt included, is followed
    at once by the "Retrying page" message. *)
Theorem exhaustion_report_unreachable (lower : pystr -> pystr)
  (lastfm : service) (cfg : config) (fuel : nat) (w : world) :
  (forall retry,
      In retry (range 0 (retry_limit cfg)) ->
      0 <= retry /\ (retry <? retry_limit cfg) = true)
  /\ (forall l page tried,
        ~ In (Log l (MsgFailed page tried))
             (trace (import_lastfm lower lastfm cfg fuel w)))
  /\ (forall pre page post,
        trace (import_lastfm lower lastfm cfg fuel w)
        = pre ++ Log Error (MsgUnableToRead page) :: post ->
        exists attempt post',
          post = Log Info (MsgRetrying page attempt (retry_limit cfg)) :: post'
          /\ 1 <= attempt <= retry_limit cfg).
Proof.
  split; [|split].
  - intros retry Hin. apply in_range in Hin. split; [lia|].
    apply Z.ltb_lt. lia.
  - intros l page tried Hin.
    destruct (import_lastfm_shape lower lastfm cfg fuel w)
      as [(_ & E & _) | (_ & tr & Ha & _ & [(_ & _ & _ & E) | (c & _ & _ & _ & _ & E)])];
      rewrite E in Hin.
    + destruct Hin.
    + destruct Hin as [Hin|[Hin|Hin]]; try discriminate.
      rewrite Forall_forall in Ha. apply Ha in Hin.
      destruct l; exact Hin.
    + destruct Hin as [Hin|[Hin|Hin]]; try discriminate.
      apply in_app_or in Hin. destruct Hin as [Hin|Hin].
      * rewrite Forall_forall in Ha. apply Ha in Hin.
        destruct l; exact Hin.
      * unfold finale in Hin. simpl in Hin.
        repeat (destruct Hin as [Hin|Hin]; try discriminate). destruct Hin.
  - assert (retried cfg (trace (import_lastfm lower lastfm cfg fuel w))) as R.
    { destruct (import_lastfm_shape lower lastfm cfg fuel w)
        as [(_ & E & _) | (_ & tr & _ & Hr & [(_ & _ & _ & E) | (c & _ & _ & _ & _ & E)])];
        rewrite E.
      - apply retried_nil.
      - apply retried_cons; [simpl; tauto|].
        apply retried_cons; [simpl; tauto|]. exact Hr.
      - apply retried_cons; [simpl; tauto|].
        apply retried_cons; [simpl; tauto|].
        apply retried_app; [exact Hr|].
        apply retried_quiet. unfold finale.
        repeat (constructor; [simpl; tauto|]). constructor. }
    exact R.
Qed.

Lemma exhaustion_report_unreachable_witness :
  (2 <? 3) = true
  /\ In (Log Info (MsgRetrying 2 3 3))
        (trace (import_lastfm ascii_lower gap (Config "bob" 50 "db" 3) 3 (boot []))).
Proof.
  destruct (exhaustion_report_unreachable ascii_lower gap
              (Config "bob" 50 "db" 3) 3 (boot [])) as (Guard & _ & _).
  split.
  - apply Guard. simpl. tauto.
  - vm_compute. tauto.
Defined.

(* ================================================================== *)
(** ** Replies that end the run *)

Lemma requests_app (t1 t2 : list event) :
  requests (t1 ++ t2) = requests t1 ++ requests t2.
Proof.
  induction t1 as [|e t1 IH]; simpl; [reflexivity|].
  destruct e; simpl; now rewrite ?IH.
Qed.

Lemma writes_app (t1 t2 : list event) :
  writes (t1 ++ t2) = writes t1 ++ writes t2.
Proof.
  induction t1 as [|e t1 IH]; simpl; [reflexivity|].
  destruct e; simpl; now rewrite ?IH.
Qed.

Lemma requests_in (tr : list event) (page limit : Z) (r : reply) :
  In (Request page limit r) tr -> In page (requests tr).
Proof.
  induction tr as [|e tr IH]; simpl; [tauto|].
  intros [->|H]; [simpl; tauto|].
  destruct e; simpl; auto.
Qed.

Lemma clean_nil : clean [].
Proof. intros page limit r []. Qed.

Lemma clean_app (t1 t2 : list event) : clean t1 -> clean t2 -> clean (t1 ++ t2).
Proof.
  intros H1 H2 page limit r Hin. apply in_app_or in Hin.
  destruct Hin; [eapply H1 | eapply H2]; eassumption.
Qed.

Lemma clean_silent (tr : list event) : requests tr = [] -> clean tr.
Proof.
  intros H page limit r Hin. apply requests_in in Hin.
  rewrite H in Hin. destruct Hin.
Qed.

Lemma clean_cons (e : event) (tr : list event) :
  (forall page limit r, e = Request page limit r -> verdict r = None) ->
  clean tr -> clean (e :: tr).
Proof.
  intros He H page limit r [E|Hin]; [eapply He; eauto | eapply H; eauto].
Qed.

Lemma ends_fatally_app (t1 t2 : list event) (e : exn) :
  clean t1 -> ends_fatally t2 e -> ends_fatally (t1 ++ t2) e.
Proof.
  intros H1 (pre & page & limit & r & -> & Hc & Hv).
  exists (t1 ++ pre), page, limit, r.
  rewrite app_assoc. repeat split; auto using clean_app.
Qed.

(** A judged run that got a fatal reply raised what the reply commands, and
    the request that got it is the last event. *)
Lemma judged_fatal {A : Type} (x : outcome A * list event * world)
  (pre post : list event) (page limit : Z) (r : reply) (e : exn) :
  judged x ->
  trace x = pre ++ Request page limit r :: post ->
  verdict r = Some e ->
  result x = Raised e /\ post = [].
Proof.
  intros [Hc | (e' & Hr & pre' & page' & limit' & r' & E' & Hc & Hv)] E V.
  - assert (verdict r = None) as N.
    { apply (Hc page limit). rewrite E. apply in_or_app. right. left.
      reflexivity. }
    congruence.
  - rewrite E' in E. symmetry in E.
    apply app_eq_app in E. destruct E as (l & [[E1 E2] | [E1 E2]]).
    + destruct l as [|y l].
      * simpl in E2. destruct post; [|discriminate].
        injection E2 as E2 E3 E4. subst.
        split; [congruence | reflexivity].
      * injection E2 as _ E2. destruct l; discriminate.
    + destruct l as [|y l].
      * simpl in E2. injection E2 as E2 E3 E4 E5. subst.
        split; [congruence | reflexivity].
      * injection E2 as Ey E2. exfalso.
        assert (verdict r = None) as N.
        { apply (Hc page limit). rewrite E1, <- Ey.
          apply in_or_app. right. left. reflexivity. }
        congruence.
Qed.

Section Verdicts.

Variable lower : pystr -> pystr.
Variable lastfm : service.
Variable cfg : config.

Lemma retry_loop_judged (retries : list Z) (pc : Z) (c : counters) (w : world) :
  judged (retry_loop lower lastfm cfg retries pc c w).
Proof.
  revert c w. induction retries as [|retry rest IH]; intros c w.
  - left. apply clean_nil.
  - rewrite retry_loop_cons. cbv zeta.
    destruct (lastfm (served w) (user cfg) (pc + 1) (per_page cfg))
      as [results total|e] eqn:Ereply.
    2:{ right. exists (PylastError e). split; [reflexivity|].
        exists [], (pc + 1), (per_page cfg), (Failure e).
        repeat split. apply clean_nil. }
    destruct (total <? 1) eqn:Etotal.
    { right. exists (UserError "Last.fm reported no data.").
      split; [reflexivity|].
      exists [], (pc + 1), (per_page cfg), (Reply results total).
      repeat split; [apply clean_nil|]. simpl. now rewrite Etotal. }
    destruct results as [|item items].
    + specialize (IH (Counters total (found_total c) (unknown_total c))
                     (World (S (served w)) (conn w) (pending w) (stored w))).
      destruct (retry_loop lower lastfm cfg rest pc _ _) as [[o tr] w'].
      assert (clean (empty_attempt cfg pc retry (Reply [] total))) as Hc.
      { unfold empty_attempt. apply clean_cons.
        - intros page limit r [= _ _ <-]. simpl. now rewrite Etotal.
        - apply clean_silent. now destruct (retry <? retry_limit cfg). }
      destruct IH as [IH | (e & Hr & Hf)].
      * left. apply clean_app; assumption.
      * right. exists e. split; [exact Hr|].
        apply ends_fatally_app; assumption.
    + left. unfold trace; cbn [fst snd]. apply clean_cons.
      * intros page limit r [= _ _ <-]. simpl. now rewrite Etotal.
      * apply clean_silent. cbn [requests]. apply process_trace_requests.
Qed.

Lemma page_loop_judged (fuel : nat) (pc : Z) (c : counters) (w : world) :
  judged (page_loop lower lastfm cfg fuel pc c w).
Proof.
  revert pc c w. induction fuel as [|fuel IH]; intros pc c w;
    destruct (Z.lt_ge_cases pc (page_total c)) as [Lt|Ge];
    try (rewrite page_loop_stop by exact Ge; left; apply clean_nil).
  - rewrite page_loop_starved by exact Lt. left. apply clean_nil.
  - rewrite page_loop_turn by exact Lt.
    pose proof (retry_loop_judged (range 0 (retry_limit cfg)) pc c w) as J.
    destruct (retry_loop lower lastfm cfg (range 0 (retry_limit cfg)) pc c w)
      as [[[c1|e|] tr] w1].
    + destruct J as [J | (e & Hr & _)]; [|discriminate].
      specialize (IH (pc + 1) c1 w1).
      destruct (page_loop lower lastfm cfg fuel (pc + 1) c1 w1)
        as [[o2 tr2] w2].
      unfold judged, trace, result in *; cbn [fst snd] in *.
      assert (clean (querying pc c :: tr)) as Hc.
      { apply clean_cons; [discriminate | exact J]. }
      destruct IH as [IH | (e & Hr & Hf)].
      * left. change (clean ((querying pc c :: tr) ++ tr2)).
        now apply clean_app.
      * right. exists e. split; [exact Hr|].
        change (ends_fatally ((querying pc c :: tr) ++ tr2) e).
        now apply ends_fatally_app.
    + unfold judged, trace, result in *; cbn [fst snd] in *.
      destruct J as [J | (e' & Hr & Hf)].
      * left. apply clean_cons; [discriminate | exact J].
      * right. exists e'. split; [exact Hr|].
        change (ends_fatally ([querying pc c] ++ tr) e').
        apply ends_fatally_app; [|exact Hf].
        apply clean_silent. reflexivity.
    + unfold judged, trace, result in *; cbn [fst snd] in *.
      destruct J as [J | (e' & Hr & Hf)]; [|discriminate].
      left. apply clean_cons; [discriminate | exact J].
Qed.

Lemma import_lastfm_judged (fuel : nat) (w : world) :
  judged (import_lastfm lower lastfm cfg fuel w).
Proof.
  destruct (string_dec (user cfg) "") as [Hu|Hu].
  - rewrite import_lastfm_no_user by exact Hu. left. apply clean_nil.
  - rewrite import_lastfm_run by exact Hu.
    pose proof (page_loop_judged fuel 0 (Counters 1 0 0)
                  (World (served w) Open (stored w) (stored w))) as J.
    destruct (page_loop lower lastfm cfg fuel 0 (Counters 1 0 0)
                (World (served w) Open (stored w) (stored w)))
      as [[[c|e|] tr] w1];
      unfold judged, trace, result in *; cbn [fst snd] in *.
    + destruct J as [J | (e & Hr & _)]; [|discriminate].
      left.
      change (clean ([Log Info (MsgFetching (user cfg));
                      Connect (sqlite3_custom_db cfg)] ++ tr ++ finale c)).
      apply clean_app; [apply clean_silent; reflexivity|].
      apply clean_app; [exact J | apply clean_silent; reflexivity].
    + destruct J as [J | (e' & Hr & Hf)].
      * left. apply clean_cons; [discriminate|].
        apply clean_cons; [discriminate | exact J].
      * right. exists e'. split; [congruence|].
        change (ends_fatally ([Log Info (MsgFetching (user cfg));
                               Connect (sqlite3_custom_db cfg)] ++ tr) e').
        apply ends_fatally_app; [apply clean_silent; reflexivity | exact Hf].
    + destruct J as [J | (e' & Hr & _)]; [|discriminate].
      left. apply clean_cons; [discriminate|].
      apply clean_cons; [discriminate | exact J].
Qed.

End Verdicts.

Lemma retry_loop_attempts (lower : pystr -> pystr) (lastfm : service)
  (cfg : config) (retries : list Z) (pc : Z) (c : counters) (w : world) :
  let x := retry_loop lower lastfm cfg retries pc c w in
  exists m : nat,
    (m <= List.length retries)%nat
    /\ (retries <> [] -> (1 <= m)%nat)
    /\ requests (trace x) = repeat (pc + 1) m
    /\ served (final x) = (served w + m)%nat.
Proof.
  revert c w. induction retries as [|retry rest IH]; intros c w.
  - exists O. rewrite retry_loop_nil. unfold trace, final; cbn [fst snd].
    repeat split; auto. congruence.
  - rewrite retry_loop_cons. cbv zeta.
    destruct (lastfm (served w) (user cfg) (pc + 1) (per_page cfg))
      as [results total|e].
    2:{ exists 1%nat. unfold trace, final; cbn [fst snd served].
        repeat split; simpl; auto; lia. }
    destruct (total <? 1).
    { exists 1%nat. unfold trace, final; cbn [fst snd served].
      repeat split; simpl; auto; lia. }
    destruct results as [|item items].
    + specialize (IH (Counters total (found_total c) (unknown_total c))
                     (World (S (served w)) (conn w) (pending w) (stored w))).
      destruct (retry_loop lower lastfm cfg rest pc _ _) as [[o tr] w'].
      destruct IH as (m & Hm & _ & Hreq & Hs).
      unfold trace, final in *; cbn [fst snd served] in *.
      exists (S m). repeat split.
      * simpl. lia.
      * lia.
      * rewrite requests_app, Hreq. unfold empty_attempt.
        destruct (retry <? retry_limit cfg); reflexivity.
      * lia.
    + exists 1%nat. unfold trace, final; cbn [fst snd served].
      repeat split; try (simpl; lia).
      cbn [requests]. now rewrite process_trace_requests.
Qed.

Lemma range_length (a b : Z) : List.length (range a b) = Z.to_nat (b - a).
Proof. unfold range. now rewrite length_map, length_seq. Qed.

(* ================================================================== *)
(** ** No data *)

(** C3.  In any run, a request answered with a total page count below 1 is
    the last event of the run (so the page is not asked for again and
    nothing is written afterwards), and the run raises the no-data error.
    In particular, when the first request is answered so, the run raises
    the error with no row written and the stored table untouched. *)
Theorem zero_pages_aborts_at_once (lower : pystr -> pystr) (lastfm : service)
  (cfg : config) (fuel : nat) (w : world) :
  let x := import_lastfm lower lastfm cfg fuel w in
  (forall pre page limit results total post,
      trace x = pre ++ Request page limit (Reply results total) :: post ->
      total < 1 ->
      result x = Raised (UserError "Last.fm reported no data.")
      /\ post = [])
  /\ (forall results total,
        user cfg <> "" -> 1 <= retry_limit cfg -> (1 <= fuel)%nat ->
        lastfm (served w) (user cfg) 1 (per_page cfg) = Reply results total ->
        total < 1 ->
        result x = Raised (UserError "Last.fm reported no data.")
        /\ trace x = [Log Info (MsgFetching (user cfg));
                      Connect (sqlite3_custom_db cfg);
                      Log Info (MsgQuerying 1 None);
                      Request 1 (per_page cfg) (Reply results total)]
        /\ writes (trace x) = []
        /\ stored (final x) = stored w).
Proof.
  intros x. split.
  - intros pre page limit results total post E Ht.
    apply (judged_fatal x pre post page limit (Reply results total)).
    + apply import_lastfm_judged.
    + exact E.
    + simpl. replace (total <? 1) with true; [reflexivity|].
      symmetry. apply Z.ltb_lt. exact Ht.
  - intros results total Hu Hr Hf Hreply Ht. subst x.
    rewrite import_lastfm_run by exact Hu.
    destruct fuel as [|fuel]; [lia|].
    rewrite page_loop_turn by (simpl; lia).
    rewrite (range_cons 0 (retry_limit cfg)) by lia.
    rewrite retry_loop_cons. cbv zeta. cbn [served].
    change (0 + 1) with 1. rewrite Hreply.
    replace (total <? 1) with true by (symmetry; apply Z.ltb_lt; exact Ht).
    unfold trace, result, final; cbn [fst snd stored].
    repeat split.
Qed.

Lemma zero_pages_aborts_at_once_witness :
  result (import_lastfm ascii_lower no_data alice 1 (boot []))
  = Raised (UserError "Last.fm reported no data.")
  /\ writes (trace (import_lastfm ascii_lower no_data alice 1 (boot []))) = [].
Proof.
  destruct (zero_pages_aborts_at_once ascii_lower no_data alice 1 (boot []))
    as (_ & First).
  destruct (First [] 0) as (R & _ & W & _).
  - discriminate.
  - simpl. lia.
  - lia.
  - reflexivity.
  - lia.
  - split; [exact R | exact W].
Defined.

(* ================================================================== *)
(** ** Transport errors *)

(** C7, as the specification states it, fails: with the service out of
    reach, the exception of the first attempt leaves the retry loop and
    ends the run, although three attempts are allowed. *)
Lemma transport_error_not_contained :
  ~ contained ascii_lower offline (Config "alice" 2 "quicktag.db" 3).
Proof.
  intros H.
  apply (H 1%nat (boot []) (NetworkError "connection refused")).
  reflexivity.
Qed.

(** C7, amended.  Within the retry loop of a page, an empty track list with
    a page count of at least 1 is logged and the page is asked for again at
    once, as long as attempts remain; a page is requested at most
    [retry_limit] times.  An exception raised by the fetch is not caught:
    in any run, the request that raised is the last event and the run ends
    with that exception. *)
Theorem empty_page_retried_exception_propagates (lower : pystr -> pystr)
  (lastfm : service) (cfg : config) :
  (forall retry rest pc c w total,
      lastfm (served w) (user cfg) (pc + 1) (per_page cfg) = Reply [] total ->
      1 <= total ->
      retry_loop lower lastfm cfg (retry :: rest) pc c w =
      let '(o, tr, w') :=
        retry_loop lower lastfm cfg rest pc
          (Counters total (found_total c) (unknown_total c))
          (World (S (served w)) (conn w) (pending w) (stored w)) in
      (o, empty_attempt cfg pc retry (Reply [] total) ++ tr, w'))
  /\ (forall pc c w,
        let x := retry_loop lower lastfm cfg (range 0 (retry_limit cfg)) pc c w in
        exists m : nat,
          Z.of_nat m <= Z.max 0 (retry_limit cfg)
          /\ requests (trace x) = repeat (pc + 1) m)
  /\ (forall fuel w pre page limit e post,
        trace (import_lastfm lower lastfm cfg fuel w)
        = pre ++ Request page limit (Failure e) :: post ->
        result (import_lastfm lower lastfm cfg fuel w) = Raised (PylastError e)
        /\ post = []).
Proof.
  split; [|split].
  - intros retry rest pc c w total Hreply Ht.
    rewrite retry_loop_cons. cbv zeta. rewrite Hreply.
    replace (total <? 1) with false by (symmetry; apply Z.ltb_ge; lia).
    reflexivity.
  - intros pc c w x.
    destruct (retry_loop_attempts lower lastfm cfg
                (range 0 (retry_limit cfg)) pc c w) as (m & Hm & _ & Hreq & _).
    exists m. split; [|exact Hreq].
    rewrite range_length in Hm. lia.
  - intros fuel w pre page limit e post E.
    apply (judged_fatal _ pre post page limit (Failure e)).
    + apply import_lastfm_judged.
    + exact E.
    + reflexivity.
Qed.

Lemma empty_page_retried_exception_propagates_witness :
  result (import_lastfm ascii_lower offline alice 1 (boot []))
  = Raised (PylastError (NetworkError "connection refused"))
  /\ requests (trace (retry_loop ascii_lower gap (Config "bob" 50 "db" 3)
                        [0; 1; 2] 1 (Counters 3 2 0) (boot [])))
     = [2; 2; 2].
Proof.
  destruct (empty_page_retried_exception_propagates ascii_lower offline alice)
    as (_ & _ & Raises).
  destruct (empty_page_retried_exception_propagates ascii_lower gap
              (Config "bob" 50 "db" 3)) as (Again & _ & _).
  split.
  - apply (Raises 1%nat (boot [])
             [Log Info (MsgFetching "alice"); Connect "quicktag.db";
              Log Info (MsgQuerying 1 None)]
             1 2 (NetworkError "connection refused") []).
    reflexivity.
  - rewrite (Again 0 [1; 2] 1 (Counters 3 2 0) (boot []) 3);
      [reflexivity | reflexivity | lia].
Defined.

(* ================================================================== *)
(** ** The connection on the error path *)

(** A run that ends on an exception after the connection was opened
    leaves it open, with nothing committed. *)
Lemma raised_run_keeps_connection_open (lower : pystr -> pystr)
  (lastfm : service) (cfg : config) (fuel : nat) (w : world) (e : exn) :
  user cfg <> "" ->
  let x := import_lastfm lower lastfm cfg fuel w in
  result x = Raised e ->
  conn (final x) = Open /\ stored (final x) = stored w /\ ~ In Close (trace x).
Proof.
  intros Hu x R. subst x.
  destruct (import_lastfm_shape lower lastfm cfg fuel w)
    as [(Hu' & _) | (_ & tr & Ha & _ & [(_ & C & S & E) | (c & R' & _)])].
  - contradiction.
  - repeat split; try assumption.
    rewrite E. intros [H|[H|H]]; try discriminate.
    rewrite Forall_forall in Ha. apply Ha in H. exact H.
  - rewrite R' in R. discriminate.
Qed.

(** C6 does not hold of the code: when the service reports no data, the
    error leaves [import_lastfm] with the connection still open; no
    [conn.close()] was issued.  (Nothing was committed either: the stored
    table is the one the run started with.)  The same happens when the
    request itself raises. *)
Theorem abort_leaves_connection_open (lower : pystr -> pystr) (db : table) :
  (let x := import_lastfm lower no_data alice 1 (boot db) in
   result x = Raised (UserError "Last.fm reported no data.")
   /\ conn (final x) = Open
   /\ ~ In Close (trace x)
   /\ stored (final x) = db)
  /\ (let x := import_lastfm lower offline alice 1 (boot db) in
      result x = Raised (PylastError (NetworkError "connection refused"))
      /\ conn (final x) = Open
      /\ ~ In Close (trace x)
      /\ stored (final x) = db).
Proof.
  cbv zeta. repeat split; intros [H|[H|[H|[H|[]]]]]; discriminate.
Qed.

(* ================================================================== *)
(** ** A retry limit of zero *)

(** C10.  With [retry_limit = 0] the run asks the service nothing and
    writes nothing: after the opening and the announcement of page 1 it
    goes straight to the prompt, commits, closes and reports 0 found and 0
    unknown; the stored table is unchanged. *)
Theorem zero_retry_limit_fetches_nothing (lower : pystr -> pystr)
  (lastfm : service) (cfg : config) (fuel : nat) (w : world) :
  user cfg <> "" -> retry_limit cfg = 0 -> (1 <= fuel)%nat ->
  import_lastfm lower lastfm cfg fuel w =
  (Returned tt,
   [Log Info (MsgFetching (user cfg));
    Connect (sqlite3_custom_db cfg);
    Log Info (MsgQuerying 1 None);
    Input "Please close any programs currently accessing the database before continuing.";
    Commit;
    Close;
    Log Info MsgDone;
    Log Info (MsgFinished 1);
    Log Info (MsgUnknown 0);
    Log Info (MsgImported 0)],
   World (served w) Closed (stored w) (stored w)).
Proof.
  intros Hu Hr Hf.
  rewrite import_lastfm_run by exact Hu.
  destruct fuel as [|fuel]; [lia|].
  rewrite page_loop_turn by (simpl; lia).
  rewrite Hr. rewrite (range_empty 0 0) by lia.
  rewrite retry_loop_nil.
  rewrite page_loop_stop by (simpl; lia).
  reflexivity.
Qed.

Lemma zero_retry_limit_fetches_nothing_witness :
  requests (trace (import_lastfm ascii_lower sexy_boy
                     (Config "alice" 2 "quicktag.db" 0) 1 (boot []))) = []
  /\ final (import_lastfm ascii_lower sexy_boy
              (Config "alice" 2 "quicktag.db" 0) 1 (boot []))
     = World 0 Closed [] [].
Proof.
  rewrite (zero_retry_limit_fetches_nothing ascii_lower sexy_boy
             (Config "alice" 2 "quicktag.db" 0) 1 (boot []));
    [ split; reflexivity | discriminate | reflexivity | lia ].
Defined.


(* ================================================================== *)
(** ** The table *)

Lemma same_key_refl (r : row) : same_key r r = true.
Proof. unfold same_key. now rewrite !String.eqb_refl. Qed.

Lemma same_key_eq (a b : row) :
  same_key a b = true <->
  url a = url b /\ subsong a = subsong b /\ fieldname a = fieldname b.
Proof.
  unfold same_key. rewrite !andb_true_iff, !String.eqb_eq. tauto.
Qed.

Lemma same_key_sym (a b : row) : same_key a b = same_key b a.
Proof.
  unfold same_key.
  now rewrite (String.eqb_sym (url a)), (String.eqb_sym (subsong a)),
    (String.eqb_sym (fieldname a)).
Qed.

Lemma same_key_trans (a b c : row) :
  same_key a b = true -> same_key b c = true -> same_key a c = true.
Proof.
  rewrite !same_key_eq. intros (? & ? & ?) (? & ? & ?).
  repeat split; congruence.
Qed.

(** After [INSERT OR REPLACE] of [r], the table holds [r] and nothing else
    under the key of [r]. *)
Lemma rows_at_insert_same (k r : row) (tb : table) :
  same_key k r = true -> rows_at k (insert_or_replace r tb) = [r].
Proof.
  intros K. unfold rows_at, insert_or_replace.
  rewrite filter_app. simpl. rewrite K.
  replace (filter (same_key k) (filter (fun x => negb (same_key r x)) tb))
    with (@nil row); [reflexivity|].
  symmetry. induction tb as [|x tb IH]; simpl; [reflexivity|].
  destruct (same_key r x) eqn:Rx; simpl; [exact IH|].
  destruct (same_key k x) eqn:Kx; [|exact IH].
  rewrite same_key_sym in K.
  rewrite (same_key_trans r k x K Kx) in Rx. discriminate.
Qed.

(** Rows under other keys are left alone. *)
Lemma rows_at_insert_other (k r : row) (tb : table) :
  same_key k r = false -> rows_at k (insert_or_replace r tb) = rows_at k tb.
Proof.
  intros K. unfold rows_at, insert_or_replace.
  rewrite filter_app. simpl. rewrite K, app_nil_r.
  induction tb as [|x tb IH]; simpl; [reflexivity|].
  destruct (same_key r x) eqn:Rx; simpl.
  - destruct (same_key k x) eqn:Kx; [|exact IH].
    rewrite same_key_sym in Rx.
    rewrite (same_key_trans k x r Kx Rx) in K. discriminate.
  - destruct (same_key k x); [now rewrite IH | exact IH].
Qed.

Lemma insert_or_replace_twice (r : row) (tb : table) :
  insert_or_replace r (insert_or_replace r tb) = insert_or_replace r tb.
Proof.
  unfold insert_or_replace at 1.
  change (filter (fun x => negb (same_key r x)) (insert_or_replace r tb))
    with (filter (fun x => negb (same_key r x)) (insert_or_replace r tb)).
  unfold insert_or_replace.
  rewrite filter_app. simpl. rewrite same_key_refl. simpl.
  rewrite app_nil_r. f_equal.
  induction tb as [|x tb IH]; simpl; [reflexivity|].
  destruct (negb (same_key r x)) eqn:Rx; simpl; [|exact IH].
  now rewrite Rx, IH.
Qed.

Lemma upsert_all_app (lower : pystr -> pystr) (l1 l2 : list track) (tb : table) :
  upsert_all lower (l1 ++ l2) tb = upsert_all lower l2 (upsert_all lower l1 tb).
Proof. unfold upsert_all. apply fold_left_app. Qed.

Lemma upsert_all_repeat (lower : pystr -> pystr) (t : track) (n : nat)
  (tb : table) :
  upsert_all lower (repeat t (S n)) tb = insert_or_replace (row_of lower t) tb.
Proof.
  revert tb. induction n as [|n IH]; intros tb; [reflexivity|].
  change (repeat t (S (S n))) with (t :: repeat t (S n)).
  change (upsert_all lower (t :: repeat t (S n)) tb)
    with (upsert_all lower (repeat t (S n))
            (insert_or_replace (row_of lower t) tb)).
  rewrite IH. apply insert_or_replace_twice.
Qed.

(** C2.  Whatever was processed before, once a track has been processed
    the table holds exactly one row under its key (the key as a string,
    "-1", "LASTFM_PLAYCOUNT_DB"), and that row carries the play count of
    this, the most recent, processing; processing the same record again,
    any number of times, leaves the table as one processing leaves it. *)
Theorem upsert_keeps_one_row_last_write_wins (lower : pystr -> pystr)
  (t : track) :
  let key := fingerprint lower (strip (artist t)) (strip (name t)) in
  (forall (before : list track) (plays : Z) (w : world),
      let x := process_tracks lower (before ++ [with_playcount t plays]) w in
      rows_at (row_of lower t) (pending (final x))
      = [Row (str key) "-1" "LASTFM_PLAYCOUNT_DB" (str plays)])
  /\ (forall (n : nat) (w : world),
        pending (final (process_tracks lower (repeat t (S n)) w))
        = pending (final (process_tracks lower [t] w)))
  /\ (forall (earlier : list Z) (w : world),
        let replay := map (with_playcount t) (earlier ++ [playcount t]) in
        let x := process_tracks lower replay w in
        result x = Returned (len replay, 0)
        /\ rows_at (row_of lower t) (pending (final x)) = [row_of lower t]).
Proof.
  cbv zeta. split; [|split].
  - intros before plays w. rewrite process_tracks_run.
    unfold final; cbn [snd pending].
    rewrite upsert_all_app.
    change (upsert_all lower [with_playcount t plays]
              (upsert_all lower before (pending w)))
      with (insert_or_replace (row_of lower (with_playcount t plays))
              (upsert_all lower before (pending w))).
    rewrite rows_at_insert_same; [reflexivity|].
    apply same_key_eq. repeat split.
  - intros n w. rewrite !process_tracks_run.
    unfold final; cbn [snd pending].
    apply upsert_all_repeat.
  - intros earlier w. rewrite process_tracks_run.
    unfold result, final; cbn [fst snd pending].
    split; [reflexivity|].
    rewrite map_app, upsert_all_app.
    change (upsert_all lower (map (with_playcount t) [playcount t])
              (upsert_all lower (map (with_playcount t) earlier) (pending w)))
      with (insert_or_replace (row_of lower t)
              (upsert_all lower (map (with_playcount t) earlier) (pending w))).
    apply rows_at_insert_same, same_key_refl.
Qed.

(** The end-to-end example of the specification: user "alice", one page
    with the same track twice, play count 10. *)
Example alice_sexy_boy :
  let x := import_lastfm ascii_lower sexy_boy alice 1 (boot []) in
  result x = Returned tt
  /\ stored (final x)
     = [Row (str (fingerprint ascii_lower (u "air") (u "sexy boy")))
            "-1" "LASTFM_PLAYCOUNT_DB" "10"]
  /\ In (Log Info (MsgImported 2)) (trace x).
Proof.
  cbv zeta. split; [|split].
  - reflexivity.
  - vm_compute. reflexivity.
  - vm_compute. tauto.
Qed.


(* ================================================================== *)
(** ** A page that stays empty *)

Section Paged.

Variable lower : pystr -> pystr.
Variable lastfm : service.
Variable cfg : config.

Lemma len_map {A B : Type} (f : A -> B) (l : list A) : len (map f l) = len l.
Proof. unfold len. now rewrite length_map. Qed.



(** A page read at the first attempt. *)
Lemma retry_loop_first_try (retry : Z) (rest : list Z) (pc : Z) (c : counters)
  (w : world) (results : list top_item) (total : Z) :
  lastfm (served w) (user cfg) (pc + 1) (per_page cfg) = Reply results total ->
  1 <= total -> results <> [] ->
  retry_loop lower lastfm cfg (retry :: rest) pc c w =
  (Returned (Counters total (found_total c + len results) (unknown_total c)),
   Request (pc + 1) (per_page cfg) (Reply results total)
     :: Log Info (MsgReceived (len results))
     :: process_trace lower (map track_of_item results),
   World (S (served w)) (conn w)
         (upsert_all lower (map track_of_item results) (pending w)) (stored w)).
Proof.
  intros Hreply Ht Hne.
  rewrite retry_loop_cons. cbv zeta. rewrite Hreply.
  replace (total <? 1) with false by (symmetry; apply Z.ltb_ge; lia).
  destruct results as [|x xs]; [congruence|].
  rewrite len_map, Z.add_0_r. reflexivity.
Qed.

Variable pages : Z -> list top_item.
Variables T bad : Z.

Hypothesis service_paged :
  forall n p, lastfm n (user cfg) p (per_page cfg) = Reply (pages p) T.
Hypothesis total_positive : 1 <= T.
Hypothesis retries_allowed : 1 <= retry_limit cfg.
Hypothesis bad_empty : pages bad = [].
Hypothesis others_full : forall p, 1 <= p <= T -> p <> bad -> pages p <> [].


End Paged.




(* ================================================================== *)
(** ** The order of the pages *)

Lemma last_total_app (t1 t2 : list event) (d : Z) :
  last_total (t1 ++ t2) d = last_total t2 (last_total t1 d).
Proof.
  revert d. induction t1 as [|e t1 IH]; intros d; [reflexivity|].
  destruct e as [| | page limit [results total|err] | | | |]; simpl; apply IH.
Qed.

Lemma last_total_silent (tr : list event) (d : Z) :
  requests tr = [] -> last_total tr d = d.
Proof.
  revert d. induction tr as [|e tr IH]; intros d H; [reflexivity|].
  destruct e; simpl in *; try discriminate; now apply IH.
Qed.

Lemma squash_head (l : list Z) (y : Z) (l' : list Z) :
  l = y :: l' -> exists s, squash l = y :: s.
Proof.
  revert y l'. induction l as [|x l IH]; intros y l' E; [discriminate|].
  injection E as -> ->.
  destruct l' as [|z l'']; [now exists []|].
  cbn [squash]. fold (squash (z :: l'')).
  destruct (y =? z) eqn:Eyz.
  - apply Z.eqb_eq in Eyz. subst z. apply (IH y l''). reflexivity.
  - now exists (squash (z :: l'')).
Qed.

Lemma squash_repeat (p : Z) (m : nat) (l : list Z) :
  (forall y l', l = y :: l' -> y <> p) ->
  squash (repeat p (S m) ++ l) = p :: squash l.
Proof.
  intros Hl. induction m as [|m IH].
  - cbn [repeat app]. destruct l as [|y l']; [reflexivity|].
    cbn [squash]. fold (squash (y :: l')).
    replace (p =? y) with false; [reflexivity|].
    symmetry. apply Z.eqb_neq. intros ->. now apply (Hl y l').
  - change (repeat p (S (S m)) ++ l) with (p :: (repeat p (S m) ++ l)).
    change (repeat p (S m) ++ l) with (p :: (repeat p m ++ l)) at 1.
    cbn [squash]. fold (squash (p :: (repeat p m ++ l))).
    rewrite Z.eqb_refl. exact IH.
Qed.

Lemma squash_repeat_range (p k : Z) (m : nat) (l : list Z) :
  p <= k -> squash l = range (p + 1) (k + 1) ->
  squash (repeat p (S m) ++ l) = range p (k + 1).
Proof.
  intros Hk Hl. rewrite squash_repeat.
  - rewrite Hl. symmetry. apply range_cons. lia.
  - intros y l' E. destruct (squash_head l y l' E) as (s & Hs).
    rewrite Hs in Hl.
    assert (In y (range (p + 1) (k + 1))) as Hin by (rewrite <- Hl; now left).
    apply in_range in Hin. lia.
Qed.

Section Order.

Variable lower : pystr -> pystr.
Variable lastfm : service.
Variable cfg : config.

(** The page count the retry loop returns is the one of its latest reply. *)
Lemma retry_loop_total (retries : list Z) (pc : Z) (c c' : counters)
  (w : world) :
  let x := retry_loop lower lastfm cfg retries pc c w in
  result x = Returned c' ->
  page_total c' = last_total (trace x) (page_total c).
Proof.
  revert c w. induction retries as [|retry rest IH]; intros c w x; subst x.
  - rewrite retry_loop_nil. intros [= <-]. reflexivity.
  - rewrite retry_loop_cons. cbv zeta.
    destruct (lastfm (served w) (user cfg) (pc + 1) (per_page cfg))
      as [results total|e]; [|discriminate].
    destruct (total <? 1); [discriminate|].
    destruct results as [|item items].
    + specialize (IH (Counters total (found_total c) (unknown_total c))
                     (World (S (served w)) (conn w) (pending w) (stored w))).
      destruct (retry_loop lower lastfm cfg rest pc _ _) as [[o tr] w'].
      unfold result, trace in *; cbn [fst snd] in *.
      intros R. rewrite last_total_app, (IH R). cbn [page_total].
      unfold empty_attempt.
      destruct (retry <? retry_limit cfg); reflexivity.
    + unfold result, trace; cbn [fst snd]. intros [= <-].
      cbn [last_total page_total]. symmetry.
      apply last_total_silent. cbn [requests]. apply process_trace_requests.
Qed.

(** With at least one attempt allowed, the page loop from [pc] on asks for
    the pages [pc + 1], ..., [k] in this order, each one at least once, and
    returns only once [k] has reached the page count of the latest reply. *)
Lemma page_loop_order (fuel : nat) (pc : Z) (c : counters) (w : world) :
  1 <= retry_limit cfg ->
  let x := page_loop lower lastfm cfg fuel pc c w in
  exists k,
    pc <= k
    /\ squash (requests (trace x)) = range (pc + 1) (k + 1)
    /\ (forall c', result x = Returned c' ->
          page_total c' <= k
          /\ page_total c' = last_total (trace x) (page_total c)).
Proof.
  intros Hr. revert pc c w. induction fuel as [|fuel IH]; intros pc c w x;
    subst x; destruct (Z.lt_ge_cases pc (page_total c)) as [Lt|Ge].
  - rewrite page_loop_starved by exact Lt. exists pc.
    unfold result, trace; cbn [fst snd requests squash].
    rewrite range_empty by lia. repeat split; try lia; discriminate.
  - rewrite page_loop_stop by exact Ge. exists pc.
    unfold result, trace; cbn [fst snd requests squash].
    rewrite range_empty by lia.
    repeat split; try lia; injection H as <-; auto; lia.
  - rewrite page_loop_turn by exact Lt.
    destruct (retry_loop_attempts lower lastfm cfg
                (range 0 (retry_limit cfg)) pc c w) as (m & _ & Hm & Hreq & _).
    assert (1 <= m)%nat as Hm1.
    { apply Hm. rewrite range_cons by lia. discriminate. }
    pose proof (fun c' => retry_loop_total (range 0 (retry_limit cfg)) pc c c' w)
      as Htot.
    destruct (retry_loop lower lastfm cfg (range 0 (retry_limit cfg)) pc c w)
      as [[[c1|e|] tr] w1]; unfold result, trace in *; cbn [fst snd] in *.
    + specialize (IH (pc + 1) c1 w1).
      destruct (page_loop lower lastfm cfg fuel (pc + 1) c1 w1)
        as [[o2 tr2] w2].
      cbn [fst snd] in *. destruct IH as (k & Hk & Hsq & Hret).
      exists k. split; [lia|]. split.
      * unfold querying. cbn [requests]. rewrite requests_app, Hreq.
        destruct m as [|m]; [lia|].
        apply squash_repeat_range; [lia | exact Hsq].
      * intros c' R. destruct (Hret c' R) as [Le Eq]. split; [exact Le|].
        rewrite Eq. unfold querying. cbn [last_total].
        rewrite last_total_app. f_equal.
        apply (Htot c1 eq_refl).
    + exists (pc + 1). split; [lia|]. split; [|discriminate].
      unfold querying. cbn [requests]. rewrite Hreq.
      destruct m as [|m]; [lia|].
      rewrite <- (app_nil_r (repeat (pc + 1) (S m))).
      apply squash_repeat_range; [lia|].
      rewrite range_empty by lia. reflexivity.
    + exists (pc + 1). split; [lia|]. split; [|discriminate].
      unfold querying. cbn [requests]. rewrite Hreq.
      destruct m as [|m]; [lia|].
      rewrite <- (app_nil_r (repeat (pc + 1) (S m))).
      apply squash_repeat_range; [lia|].
      rewrite range_empty by lia. reflexivity.
  - rewrite page_loop_stop by exact Ge. exists pc.
    unfold result, trace; cbn [fst snd requests squash].
    rewrite range_empty by lia.
    repeat split; try lia; injection H as <-; auto; lia.
Qed.

(** With no attempt allowed, the page loop asks for nothing. *)
Lemma page_loop_silent (fuel : nat) (pc : Z) (c : counters) (w : world) :
  retry_limit cfg <= 0 ->
  requests (trace (page_loop lower lastfm cfg fuel pc c w)) = [].
Proof.
  intros Hr. revert pc c w. induction fuel as [|fuel IH]; intros pc c w;
    destruct (Z.lt_ge_cases pc (page_total c)) as [Lt|Ge];
    try (rewrite page_loop_stop by exact Ge; reflexivity).
  - rewrite page_loop_starved by exact Lt. reflexivity.
  - rewrite page_loop_turn by exact Lt.
    rewrite range_empty by lia. rewrite retry_loop_nil.
    specialize (IH (pc + 1) c w).
    destruct (page_loop lower lastfm cfg fuel (pc + 1) c w) as [[o2 tr2] w2].
    unfold trace, querying in *; cbn [fst snd requests app] in *. exact IH.
Qed.

End Order.

(** *** The loop test, turn by turn *)

Lemma turns_app (t1 t2 : list event) : turns (t1 ++ t2) = turns t1 + turns t2.
Proof.
  induction t1 as [|e t1 IH]; [reflexivity|].
  destruct e as [l []| | | | | |]; cbn [app turns]; lia.
Qed.

Lemma follows_app (t1 t2 : list event) (pc d : Z) :
  follows pc d (t1 ++ t2)
  <-> follows pc d t1 /\ follows (pc + turns t1) (last_total t1 d) t2.
Proof.
  revert pc d. induction t1 as [|e t1 IH]; intros pc d.
  - cbn [app follows turns last_total]. rewrite Z.add_0_r. tauto.
  - destruct e as [l m| |page limit [results total|err]| | | |];
      try (cbn [app follows turns last_total]; apply IH).
    + destruct m; try (cbn [app follows turns last_total]; apply IH).
      cbn [app follows turns last_total]. rewrite IH.
      replace (pc + (1 + turns t1)) with (pc + 1 + turns t1) by lia. tauto.
    + cbn [app follows turns last_total]. rewrite IH. tauto.
    + cbn [app follows turns last_total]. rewrite IH. tauto.
Qed.

Lemma follows_quiet (tr : list event) (pc d : Z) :
  requests tr = [] -> turns tr = 0 -> follows pc d tr.
Proof.
  induction tr as [|e tr IH]; intros Hr Ht; [exact I|].
  destruct e as [l m| |page limit r| | | |]; cbn in Hr; try discriminate;
    try (cbn [follows]; apply IH; assumption).
  destruct m; try (cbn [follows]; apply IH; assumption).
  exfalso. cbn [turns] in Ht.
  assert (0 <= turns tr).
  { clear. induction tr as [|e tr IH]; [cbn; lia|].
    destruct e as [l []| | | | | |]; cbn [turns]; lia. }
  lia.
Qed.

Lemma follows_at_querying (pre post : list event) (pc d : Z) (l : level)
  (page : Z) (suffix : option Z) :
  follows pc d (pre ++ Log l (MsgQuerying page suffix) :: post) ->
  pc + turns pre < last_total pre d /\ page = pc + turns pre + 1.
Proof.
  intros H. apply follows_app in H. destruct H as [_ H].
  cbn [follows] in H. tauto.
Qed.

Lemma follows_at_request (pre post : list event) (pc d : Z) (page limit : Z)
  (r : reply) :
  follows pc d (pre ++ Request page limit r :: post) ->
  page = pc + turns pre.
Proof.
  intros H. apply follows_app in H. destruct H as [_ H].
  destruct r; cbn [follows] in H; tauto.
Qed.

Section Turns.

Variable lower : pystr -> pystr.
Variable lastfm : service.
Variable cfg : config.

Lemma process_trace_turns (tracks : list track) :
  turns (process_trace lower tracks) = 0.
Proof.
  unfold process_trace. induction tracks as [|t tracks IH]; [reflexivity|].
  cbn [flat_map track_trace app turns]. exact IH.
Qed.

(** The retry loop begins no turn, and asks for the page of the turn it
    runs in only. *)
Lemma retry_loop_follows (retries : list Z) (pc : Z) (c : counters) (w : world) :
  let x := retry_loop lower lastfm cfg retries pc c w in
  turns (trace x) = 0 /\ forall d, follows (pc + 1) d (trace x).
Proof.
  revert c w. induction retries as [|retry rest IH]; intros c w x; subst x.
  - rewrite retry_loop_nil. split; [reflexivity | intros d; exact I].
  - rewrite retry_loop_cons. cbv zeta.
    destruct (lastfm (served w) (user cfg) (pc + 1) (per_page cfg))
      as [results total|e].
    2:{ unfold trace; cbn [fst snd]. split; [reflexivity|].
        intros d. cbn [follows]. tauto. }
    destruct (total <? 1).
    { unfold trace; cbn [fst snd]. split; [reflexivity|].
      intros d. cbn [follows]. tauto. }
    destruct results as [|item items].
    + specialize (IH (Counters total (found_total c) (unknown_total c))
                     (World (S (served w)) (conn w) (pending w) (stored w))).
      destruct (retry_loop lower lastfm cfg rest pc _ _) as [[o tr] w'].
      unfold trace in *; cbn [fst snd] in *. destruct IH as (Ht & Hf).
      assert (turns (empty_attempt cfg pc retry (Reply [] total)) = 0) as T0.
      { unfold empty_attempt. now destruct (retry <? retry_limit cfg). }
      split.
      * rewrite turns_app, T0, Ht. reflexivity.
      * intros d. apply follows_app. split.
        -- unfold empty_attempt.
           destruct (retry <? retry_limit cfg); cbn [follows]; tauto.
        -- rewrite T0, Z.add_0_r. apply Hf.
    + unfold trace; cbn [fst snd]. split.
      * cbn [turns]. apply process_trace_turns.
      * intros d. cbn [follows]. split; [reflexivity|].
        apply follows_quiet;
          [apply process_trace_requests | apply process_trace_turns].
Qed.

(** The page loop keeps to its test at every turn, and returns only once
    the turns begun have reached the page count of the latest reply. *)
Lemma page_loop_follows (fuel : nat) (pc : Z) (c : counters) (w : world) :
  let x := page_loop lower lastfm cfg fuel pc c w in
  follows pc (page_total c) (trace x)
  /\ (forall c', result x = Returned c' ->
        page_total c' <= pc + turns (trace x)
        /\ page_total c' = last_total (trace x) (page_total c)).
Proof.
  revert pc c w. induction fuel as [|fuel IH]; intros pc c w x; subst x;
    destruct (Z.lt_ge_cases pc (page_total c)) as [Lt|Ge];
    try (rewrite page_loop_stop by exact Ge;
         unfold result, trace; cbn [fst snd follows turns last_total];
         split; [exact I | intros c' [= <-]; split; [lia | reflexivity]]).
  - rewrite page_loop_starved by exact Lt.
    unfold result, trace; cbn [fst snd]. split; [exact I | discriminate].
  - rewrite page_loop_turn by exact Lt.
    pose proof (retry_loop_follows (range 0 (retry_limit cfg)) pc c w) as R.
    pose proof (fun c' => retry_loop_total lower lastfm cfg
                            (range 0 (retry_limit cfg)) pc c c' w) as Htot.
    destruct (retry_loop lower lastfm cfg (range 0 (retry_limit cfg)) pc c w)
      as [[[c1|e|] tr] w1]; unfold result, trace in *; cbn [fst snd] in *;
      destruct R as (Rt & Rf).
    + specialize (IH (pc + 1) c1 w1). specialize (Htot c1 eq_refl).
      destruct (page_loop lower lastfm cfg fuel (pc + 1) c1 w1)
        as [[o2 tr2] w2].
      cbn [fst snd] in *. destruct IH as (If & Ir).
      unfold querying. split.
      * cbn [follows]. split; [exact Lt|]. split; [reflexivity|].
        apply follows_app. split; [apply Rf|].
        rewrite Rt, Z.add_0_r, <- Htot. exact If.
      * intros c' E. destruct (Ir c' E) as [Le Eq].
        cbn [turns last_total]. rewrite turns_app, last_total_app, Rt, <- Htot.
        split; [lia | exact Eq].
    + unfold querying. split; [|discriminate].
      cbn [follows]. split; [exact Lt|]. split; [reflexivity | apply Rf].
    + unfold querying. split; [|discriminate].
      cbn [follows]. split; [exact Lt|]. split; [reflexivity | apply Rf].
Qed.

(** The same of a whole run, which begins with no turn and a page count
    of 1. *)
Lemma import_lastfm_follows (fuel : nat) (w : world) :
  let x := import_lastfm lower lastfm cfg fuel w in
  follows 0 1 (trace x)
  /\ (result x = Returned tt -> last_total (trace x) 1 <= turns (trace x)).
Proof.
  intros x. subst x.
  destruct (string_dec (user cfg) "") as [Hu|Hu].
  { rewrite import_lastfm_no_user by exact Hu.
    unfold result, trace; cbn [fst snd]. split; [exact I | discriminate]. }
  rewrite import_lastfm_run by exact Hu.
  pose proof (page_loop_follows fuel 0 (Counters 1 0 0)
                (World (served w) Open (stored w) (stored w))) as P.
  destruct (page_loop lower lastfm cfg fuel 0 (Counters 1 0 0) _)
    as [[[c|e|] tr] w1]; unfold result, trace in *;
    cbn [fst snd page_total] in *; destruct P as (Pf & Pr).
  - destruct (Pr c eq_refl) as [Le Eq]. split.
    + cbn [follows]. apply follows_app. split; [exact Pf|].
      apply follows_quiet; reflexivity.
    + intros _. cbn [last_total turns].
      rewrite last_total_app, turns_app, <- Eq.
      unfold finale. cbn [last_total turns]. lia.
  - split; [exact Pf | discriminate].
  - split; [exact Pf | discriminate].
Qed.

End Turns.

(** C5.  The pages a run asks for, retries of a page apart, are 1, 2, ...,
    k in this order; a run that returns has stopped with k at or above the
    page count of the latest reply, which is the count it reports.  So
    when page 1 announces 5 pages and page 2 announces 2, the run asks for
    pages 1 and 2 and for no other, and reports 2 pages.

    The loop test itself, in every run: a turn of the page loop begins (its
    "Querying page" message is logged) only while the number of turns
    begun before, which is [page_current], is below the page count of the
    latest reply received so far (1 when there is none), and it announces
    the next page; a request is for the page of the turn it is made in, so
    no page is asked for that the test did not admit; and a run returns
    only once the turns begun have reached the page count of the latest
    reply. *)
Theorem page_bound_follows_latest_reply (lower : pystr -> pystr)
  (lastfm : service) (cfg : config) (fuel : nat) (w : world) :
  let x := import_lastfm lower lastfm cfg fuel w in
  (exists k,
      0 <= k
      /\ squash (requests (trace x)) = range 1 (k + 1)
      /\ (result x = Returned tt -> 1 <= retry_limit cfg ->
          last_total (trace x) 1 <= k
          /\ In (Log Info (MsgFinished (last_total (trace x) 1))) (trace x)))
  /\ (forall r1 r2,
        user cfg <> "" -> 1 <= retry_limit cfg -> (2 <= fuel)%nat ->
        r1 <> [] -> r2 <> [] ->
        (forall n, lastfm n (user cfg) 1 (per_page cfg) = Reply r1 5) ->
        (forall n, lastfm n (user cfg) 2 (per_page cfg) = Reply r2 2) ->
        result x = Returned tt
        /\ requests (trace x) = [1; 2]
        /\ In (Log Info (MsgFinished 2)) (trace x))
  /\ (forall pre l page of_total post,
        trace x = pre ++ Log l (MsgQuerying page of_total) :: post ->
        turns pre < last_total pre 1 /\ page = turns pre + 1)
  /\ (forall pre page limit r post,
        trace x = pre ++ Request page limit r :: post ->
        page = turns pre)
  /\ (result x = Returned tt -> last_total (trace x) 1 <= turns (trace x)).
Proof.
  intros x. subst x. split; [|split; [|split; [|split]]].
  - destruct (string_dec (user cfg) "") as [Hu|Hu].
    { rewrite import_lastfm_no_user by exact Hu. exists 0.
      unfold result, trace; cbn [fst snd requests squash].
      repeat split; try lia; try discriminate. }
    rewrite import_lastfm_run by exact Hu.
    destruct (Z.lt_ge_cases (retry_limit cfg) 1) as [Hr|Hr].
    + pose proof (page_loop_silent lower lastfm cfg fuel 0 (Counters 1 0 0)
                    (World (served w) Open (stored w) (stored w))
                    ltac:(lia)) as Q.
      destruct (page_loop lower lastfm cfg fuel 0 (Counters 1 0 0) _)
        as [[[c|e|] tr] w1]; unfold result, trace in *; cbn [fst snd] in *;
        exists 0; (split; [lia|]); (split; [|intros; lia]);
        cbn [requests]; rewrite ?requests_app, Q; reflexivity.
    + pose proof (page_loop_order lower lastfm cfg fuel 0 (Counters 1 0 0)
                    (World (served w) Open (stored w) (stored w)) Hr) as P.
      destruct (page_loop lower lastfm cfg fuel 0 (Counters 1 0 0) _)
        as [[[c|e|] tr] w1]; unfold result, trace in *; cbn [fst snd] in *;
        destruct P as (k & Hk & Hsq & Hret); exists k; (split; [exact Hk|]).
      * destruct (Hret c eq_refl) as [Le Eq]. cbn [page_total] in Eq.
        assert (last_total
                  (Log Info (MsgFetching (user cfg))
                   :: Connect (sqlite3_custom_db cfg) :: tr ++ finale c) 1
                = page_total c) as Elast.
        { cbn [last_total]. rewrite last_total_app, <- Eq. reflexivity. }
        split.
        -- cbn [requests]. rewrite requests_app. unfold finale.
           cbn [requests]. rewrite app_nil_r. exact Hsq.
        -- intros _ _. rewrite Elast. split; [exact Le|].
           right. right. apply in_or_app. right. unfold finale. simpl. tauto.
      * split; [exact Hsq | discriminate].
      * split; [exact Hsq | discriminate].
  - intros r1 r2 Hu Hr Hf H1 H2 S1 S2.
    rewrite import_lastfm_run by exact Hu.
    destruct fuel as [|[|fuel]]; try lia.
    rewrite page_loop_turn by (simpl; lia).
    rewrite (range_cons 0 (retry_limit cfg)) by lia.
    rewrite (retry_loop_first_try lower lastfm cfg _ _ 0 _ _ r1 5)
      by (auto; lia).
    rewrite page_loop_turn by (simpl; lia).
    rewrite (range_cons 0 (retry_limit cfg)) by lia.
    rewrite (retry_loop_first_try lower lastfm cfg _ _ (0 + 1) _ _ r2 2)
      by (auto; lia).
    rewrite page_loop_stop by (simpl; lia).
    unfold result, trace, querying; cbn [fst snd page_total].
    split; [reflexivity|]. split.
    + unfold finale.
      repeat (cbn [requests app];
              rewrite ?requests_app, ?process_trace_requests, ?app_nil_r).
      reflexivity.
    + right. right. apply in_or_app. right. unfold finale. simpl. tauto.
  - intros pre l page of_total post E.
    destruct (import_lastfm_follows lower lastfm cfg fuel w) as [F _].
    rewrite E in F. apply follows_at_querying in F.
    rewrite Z.add_0_l in F. exact F.
  - intros pre page limit r post E.
    destruct (import_lastfm_follows lower lastfm cfg fuel w) as [F _].
    rewrite E in F. apply follows_at_request in F.
    rewrite Z.add_0_l in F. exact F.
  - apply import_lastfm_follows.
Qed.

Lemma page_bound_follows_latest_reply_witness :
  let x := import_lastfm ascii_lower shrinking (Config "bob" 50 "db" 3) 2
             (boot []) in
  result x = Returned tt
  /\ requests (trace x) = [1; 2]
  /\ In (Log Info (MsgFinished 2)) (trace x).
Proof.
  destruct (page_bound_follows_latest_reply ascii_lower shrinking
              (Config "bob" 50 "db" 3) 2 (boot [])) as (_ & Scenario & _).
  apply (Scenario [item "Air" "Sexy Boy" 1] [item "Air" "Sexy Boy" 2]).
  - discriminate.
  - simpl. lia.
  - lia.
  - discriminate.
  - discriminate.
  - reflexivity.
  - reflexivity.
Defined.


(* ================================================================== *)
(** ** The ledger: what is written, counted and committed *)

Lemma replay_app (r1 r2 : list row) (tb : table) :
  replay (r1 ++ r2) tb = replay r2 (replay r1 tb).
Proof. unfold replay. apply fold_left_app. Qed.

Lemma upsert_all_replay (lower : pystr -> pystr) (tracks : list track)
  (tb : table) :
  upsert_all lower tracks tb = replay (map (row_of lower) tracks) tb.
Proof.
  revert tb. induction tracks as [|t tracks IH]; intros tb; [reflexivity|].
  simpl. apply IH.
Qed.

Lemma delivered_app (t1 t2 : list event) :
  delivered (t1 ++ t2) = delivered t1 ++ delivered t2.
Proof.
  induction t1 as [|e t1 IH]; [reflexivity|].
  destruct e as [| | page limit [results total|err] | | | |]; simpl;
    rewrite ?IH, ?app_assoc; reflexivity.
Qed.

Lemma delivered_silent (tr : list event) : requests tr = [] -> delivered tr = [].
Proof.
  induction tr as [|e tr IH]; [reflexivity|].
  destruct e; simpl; try discriminate; exact IH.
Qed.

Lemma len_app {A : Type} (l1 l2 : list A) : len (l1 ++ l2) = len l1 + len l2.
Proof. unfold len. rewrite length_app. lia. Qed.

Section Ledger.

Variable lower : pystr -> pystr.
Variable lastfm : service.
Variable cfg : config.

Lemma retry_loop_ledger (retries : list Z) (pc : Z) (c : counters) (w : world) :
  let x := retry_loop lower lastfm cfg retries pc c w in
  pending (final x) = replay (writes (trace x)) (pending w)
  /\ writes (trace x) = map (row_of_item lower) (delivered (trace x))
  /\ (forall c', result x = Returned c' ->
        found_total c' = found_total c + len (writes (trace x))).
Proof.
  revert c w. induction retries as [|retry rest IH]; intros c w x; subst x.
  - rewrite retry_loop_nil. unfold result, trace, final; cbn [fst snd].
    repeat split. intros c' [= <-]. cbn. lia.
  - rewrite retry_loop_cons. cbv zeta.
    destruct (lastfm (served w) (user cfg) (pc + 1) (per_page cfg))
      as [results total|e].
    2:{ unfold result, trace, final; cbn [fst snd pending].
        repeat split. discriminate. }
    destruct (total <? 1) eqn:Etotal.
    { unfold result, trace, final; cbn [fst snd pending writes delivered].
      rewrite Etotal. repeat split. discriminate. }
    destruct results as [|item items].
    + specialize (IH (Counters total (found_total c) (unknown_total c))
                     (World (S (served w)) (conn w) (pending w) (stored w))).
      destruct (retry_loop lower lastfm cfg rest pc _ _) as [[o tr] w'].
      unfold result, trace, final in *; cbn [fst snd pending found_total] in *.
      destruct IH as (Hp & Hw & Hf).
      assert (writes (empty_attempt cfg pc retry (Reply [] total)) = []) as W0.
      { unfold empty_attempt. now destruct (retry <? retry_limit cfg). }
      assert (delivered (empty_attempt cfg pc retry (Reply [] total)) = []) as D0.
      { unfold empty_attempt. cbn [delivered].
        destruct (total <? 1), (retry <? retry_limit cfg); reflexivity. }
      rewrite writes_app, delivered_app, W0, D0. cbn [app].
      repeat split; assumption.
    + unfold result, trace, final; cbn [fst snd pending writes delivered].
      rewrite Etotal, process_trace_writes.
      rewrite (delivered_silent _ (process_trace_requests lower _)).
      rewrite upsert_all_replay, app_nil_r.
      repeat split.
      * unfold row_of_item. now rewrite map_map.
      * intros c' [= <-]. cbn [found_total].
        change (track_of_item item :: map track_of_item items)
          with (map track_of_item (item :: items)).
        unfold len. now rewrite !length_map.
Qed.

Lemma page_loop_ledger (fuel : nat) (pc : Z) (c : counters) (w : world) :
  let x := page_loop lower lastfm cfg fuel pc c w in
  pending (final x) = replay (writes (trace x)) (pending w)
  /\ writes (trace x) = map (row_of_item lower) (delivered (trace x))
  /\ (forall c', result x = Returned c' ->
        found_total c' = found_total c + len (writes (trace x))).
Proof.
  revert pc c w. induction fuel as [|fuel IH]; intros pc c w x; subst x;
    destruct (Z.lt_ge_cases pc (page_total c)) as [Lt|Ge];
    try (rewrite page_loop_stop by exact Ge;
         unfold result, trace, final; cbn [fst snd];
         repeat split; intros c' [= <-]; cbn; lia).
  - rewrite page_loop_starved by exact Lt.
    unfold result, trace, final; cbn [fst snd]. repeat split. discriminate.
  - rewrite page_loop_turn by exact Lt.
    pose proof (retry_loop_ledger (range 0 (retry_limit cfg)) pc c w) as R.
    destruct (retry_loop lower lastfm cfg (range 0 (retry_limit cfg)) pc c w)
      as [[[c1|e|] tr] w1]; unfold result, trace, final in *;
      cbn [fst snd] in *; destruct R as (Rp & Rw & Rf).
    + specialize (IH (pc + 1) c1 w1).
      destruct (page_loop lower lastfm cfg fuel (pc + 1) c1 w1)
        as [[o2 tr2] w2].
      cbn [fst snd] in *. destruct IH as (Ip & Iw & If).
      unfold querying. cbn [writes delivered].
      rewrite writes_app, delivered_app, map_app, replay_app, <- Rp, <- Rw, <- Iw.
      repeat split; try assumption.
      intros c' E. rewrite (If c' E), (Rf c1 eq_refl), len_app. lia.
    + unfold querying. cbn [writes delivered].
      repeat split; assumption.
    + unfold querying. cbn [writes delivered].
      repeat split; assumption.
Qed.

End Ledger.

Lemma writes_finale (c : counters) : writes (finale c) = [].
Proof. reflexivity. Qed.

Lemma delivered_finale (c : counters) : delivered (finale c) = [].
Proof. reflexivity. Qed.

(** The table a run that returned has stored. *)
Lemma returned_run_stored (lower : pystr -> pystr) (lastfm : service)
  (cfg : config) (fuel : nat) (w : world) :
  let x := import_lastfm lower lastfm cfg fuel w in
  result x = Returned tt ->
  stored (final x) = replay (writes (trace x)) (stored w).
Proof.
  intros x R. subst x.
  destruct (string_dec (user cfg) "") as [Hu|Hu].
  { rewrite import_lastfm_no_user in R by exact Hu. discriminate. }
  revert R. rewrite import_lastfm_run by exact Hu.
  pose proof (page_loop_ledger lower lastfm cfg fuel 0 (Counters 1 0 0)
                (World (served w) Open (stored w) (stored w))) as L.
  destruct (page_loop lower lastfm cfg fuel 0 (Counters 1 0 0) _)
    as [[[c|e|] tr] w1]; unfold result, trace, final in *;
    cbn [fst snd pending stored] in *; try discriminate.
  intros _. destruct L as (Lp & _).
  cbn [writes]. rewrite writes_app, writes_finale, app_nil_r. exact Lp.
Qed.

(** X1.  A run commits all or nothing.  With no user configured nothing
    happens at all.  Otherwise, when the run returns, the stored table is
    the one it started with after every row written during the run, in
    order, and the connection is closed; when it does not return, the
    stored table is the one it started with and the rows written are
    pending only. *)
Theorem commit_is_all_or_nothing (lower : pystr -> pystr) (lastfm : service)
  (cfg : config) (fuel : nat) (w : world) :
  let x := import_lastfm lower lastfm cfg fuel w in
  (user cfg = "" -> trace x = [] /\ final x = w)
  /\ (user cfg <> "" ->
      (result x = Returned tt ->
         stored (final x) = replay (writes (trace x)) (stored w)
         /\ conn (final x) = Closed)
      /\ (result x <> Returned tt ->
            stored (final x) = stored w
            /\ pending (final x) = replay (writes (trace x)) (stored w))).
Proof.
  intros x. subst x. split.
  - intros Hu. rewrite import_lastfm_no_user by exact Hu. split; reflexivity.
  - intros Hu. rewrite import_lastfm_run by exact Hu.
    pose proof (page_loop_ledger lower lastfm cfg fuel 0 (Counters 1 0 0)
                  (World (served w) Open (stored w) (stored w))) as L.
    pose proof (page_loop_invariant lower lastfm cfg fuel 0 (Counters 1 0 0)
                  (World (served w) Open (stored w) (stored w))) as I.
    destruct (page_loop lower lastfm cfg fuel 0 (Counters 1 0 0) _)
      as [[[c|e|] tr] w1]; unfold result, trace, final in *;
      cbn [fst snd pending stored conn] in *;
      destruct L as (Lp & _); destruct I as (_ & _ & _ & Is & _).
    + cbn [writes]. rewrite writes_app, writes_finale, app_nil_r.
      split; [intros _; split; [exact Lp | reflexivity] | congruence].
    + cbn [writes]. split; [discriminate | intros _; split; assumption].
    + cbn [writes]. split; [discriminate | intros _; split; assumption].
Qed.

Lemma commit_is_all_or_nothing_witness :
  stored (final (import_lastfm ascii_lower sexy_boy alice 1 (boot [])))
  = replay (writes (trace (import_lastfm ascii_lower sexy_boy alice 1 (boot []))))
           []
  /\ stored (final (import_lastfm ascii_lower no_data alice 1 (boot []))) = [].
Proof.
  destruct (commit_is_all_or_nothing ascii_lower sexy_boy alice 1 (boot []))
    as (_ & Good).
  destruct (commit_is_all_or_nothing ascii_lower no_data alice 1 (boot []))
    as (_ & Bad).
  destruct Good as ((Committed & _) & _); [discriminate | reflexivity |].
  destruct Bad as (_ & (Kept & _)); [discriminate | vm_compute; discriminate |].
  split; [exact Committed | exact Kept].
Defined.

(** The rows written, from the tracks delivered. *)
Lemma import_lastfm_writes (lower : pystr -> pystr) (lastfm : service)
  (cfg : config) (fuel : nat) (w : world) :
  writes (trace (import_lastfm lower lastfm cfg fuel w))
  = map (row_of_item lower)
        (delivered (trace (import_lastfm lower lastfm cfg fuel w))).
Proof.
  destruct (string_dec (user cfg) "") as [Hu|Hu].
  - rewrite import_lastfm_no_user by exact Hu. reflexivity.
  - rewrite import_lastfm_run by exact Hu.
    pose proof (page_loop_ledger lower lastfm cfg fuel 0 (Counters 1 0 0)
                  (World (served w) Open (stored w) (stored w))) as L.
    destruct (page_loop lower lastfm cfg fuel 0 (Counters 1 0 0) _)
      as [[[c|e|] tr] w1]; unfold trace in *; cbn [fst snd] in *;
      destruct L as (_ & Lw & _); cbn [writes delivered];
      rewrite ?writes_app, ?delivered_app, ?writes_finale, ?delivered_finale,
        ?app_nil_r; exact Lw.
Qed.

(** X2.  The rows a run writes are the rows of the tracks the service
    delivered on pages with a page count of at least 1, one row for each
    track, in the order of delivery: the key of the trimmed artist and
    title as [url], the weight as [value]. *)
Theorem writes_are_the_delivered_tracks (lower : pystr -> pystr)
  (lastfm : service) (cfg : config) (fuel : nat) (w : world) :
  writes (trace (import_lastfm lower lastfm cfg fuel w))
  = map (fun i =>
           Row (str (fingerprint lower (strip (item_artist i))
                       (strip (item_title i))))
               "-1" "LASTFM_PLAYCOUNT_DB" (str (weight i)))
        (delivered (trace (import_lastfm lower lastfm cfg fuel w))).
Proof.
  rewrite import_lastfm_writes.
  apply map_ext. intros i. reflexivity.
Qed.

(** X3.  The "play-counts imported" line of the report appears exactly in
    the runs that return, and the number it gives is the number of rows
    written, which is the number of tracks delivered. *)
Theorem imported_count_is_rows_written (lower : pystr -> pystr)
  (lastfm : service) (cfg : config) (fuel : nat) (w : world) (n : Z) :
  let x := import_lastfm lower lastfm cfg fuel w in
  In (Log Info (MsgImported n)) (trace x)
  <-> result x = Returned tt
      /\ n = len (writes (trace x))
      /\ n = len (delivered (trace x)).
Proof.
  intros x.
  assert (len (writes (trace x)) = len (delivered (trace x))) as Hlen.
  { subst x. rewrite import_lastfm_writes. apply len_map. }
  rewrite <- Hlen. clear Hlen. subst x.
  destruct (string_dec (user cfg) "") as [Hu|Hu].
  { rewrite import_lastfm_no_user by exact Hu.
    unfold result, trace; cbn [fst snd]. split; [intros [] | intros [H _]].
    discriminate. }
  rewrite import_lastfm_run by exact Hu.
  pose proof (page_loop_ledger lower lastfm cfg fuel 0 (Counters 1 0 0)
                (World (served w) Open (stored w) (stored w))) as L.
  pose proof (page_loop_invariant lower lastfm cfg fuel 0 (Counters 1 0 0)
                (World (served w) Open (stored w) (stored w))) as I.
  destruct (page_loop lower lastfm cfg fuel 0 (Counters 1 0 0) _)
    as [[[c|e|] tr] w1]; unfold result, trace, final in *;
    cbn [fst snd] in *; destruct L as (_ & _ & Lf);
    destruct I as (Ia & _); rewrite Forall_forall in Ia.
  - cbn [writes]. rewrite writes_app, writes_finale, app_nil_r.
    specialize (Lf c eq_refl). cbn [found_total] in Lf.
    split.
    + intros [H|[H|H]]; try discriminate.
      apply in_app_or in H. destruct H as [H|H].
      * apply Ia in H. destruct H.
      * unfold finale in H. simpl in H.
        repeat (destruct H as [H|H]; try discriminate); [|destruct H].
        injection H as <-. repeat split; lia.
    + intros (_ & -> & _). right. right. apply in_or_app. right.
      unfold finale. rewrite Lf. simpl. replace (0 + len (writes tr)) with (len (writes tr)) by lia. tauto.
  - split; [|intros [H _]; discriminate].
    intros [H|[H|H]]; try discriminate. apply Ia in H. destruct H.
  - split; [|intros [H _]; discriminate].
    intros [H|[H|H]]; try discriminate. apply Ia in H. destruct H.
Qed.

Lemma imported_count_is_rows_written_witness :
  In (Log Info (MsgImported 2))
     (trace (import_lastfm ascii_lower sexy_boy alice 1 (boot []))).
Proof.
  apply (imported_count_is_rows_written ascii_lower sexy_boy alice 1 (boot []) 2).
  repeat split.
Defined.

(* ================================================================== *)
(** ** How much a run asks *)

Section Budget.

Variable lower : pystr -> pystr.
Variable lastfm : service.
Variable cfg : config.

(** The page loop from [pc] on asks for pages above [pc] only, and for none
    of them more than [retry_limit] times. *)
Lemma page_loop_budget (fuel : nat) (pc : Z) (c : counters) (w : world) :
  let reqs := requests (trace (page_loop lower lastfm cfg fuel pc c w)) in
  Forall (fun p => pc < p) reqs
  /\ forall p, (count_occ Z.eq_dec reqs p <= Z.to_nat (retry_limit cfg))%nat.
Proof.
  revert pc c w. induction fuel as [|fuel IH]; intros pc c w reqs; subst reqs;
    destruct (Z.lt_ge_cases pc (page_total c)) as [Lt|Ge];
    try (rewrite page_loop_stop by exact Ge; unfold trace; cbn [fst snd];
         split; [constructor | intros p; simpl; lia]).
  - rewrite page_loop_starved by exact Lt. unfold trace; cbn [fst snd].
    split; [constructor | intros p; simpl; lia].
  - rewrite page_loop_turn by exact Lt.
    destruct (retry_loop_attempts lower lastfm cfg
                (range 0 (retry_limit cfg)) pc c w) as (m & Hm & _ & Hreq & _).
    rewrite range_length in Hm.
    replace (retry_limit cfg - 0) with (retry_limit cfg) in Hm by lia.
    destruct (retry_loop lower lastfm cfg (range 0 (retry_limit cfg)) pc c w)
      as [[[c1|e|] tr] w1]; unfold trace in *; cbn [fst snd] in *.
    + specialize (IH (pc + 1) c1 w1).
      destruct (page_loop lower lastfm cfg fuel (pc + 1) c1 w1)
        as [[o2 tr2] w2].
      cbn [fst snd] in *. destruct IH as (Habove & Hcount).
      unfold querying. cbn [requests]. rewrite requests_app, Hreq.
      split.
      * apply Forall_app. split.
        -- apply Forall_forall. intros p Hp. apply repeat_spec in Hp. lia.
        -- eapply Forall_impl; [|exact Habove]. simpl. intros p Hp. lia.
      * intros p. rewrite count_occ_app.
        destruct (Z.eq_dec p (pc + 1)) as [->|Np].
        -- rewrite count_occ_repeat_eq by reflexivity.
           replace (count_occ Z.eq_dec (requests tr2) (pc + 1)) with O; [lia|].
           symmetry. apply count_occ_not_In. intros Hin.
           rewrite Forall_forall in Habove. apply Habove in Hin. lia.
        -- rewrite count_occ_repeat_neq by exact Np. apply Hcount.
    + unfold querying. cbn [requests]. rewrite Hreq. split.
      * apply Forall_forall. intros p Hp. apply repeat_spec in Hp. lia.
      * intros p. destruct (Z.eq_dec p (pc + 1)) as [->|Np].
        -- rewrite count_occ_repeat_eq by reflexivity. exact Hm.
        -- rewrite count_occ_repeat_neq by exact Np. lia.
    + unfold querying. cbn [requests]. rewrite Hreq. split.
      * apply Forall_forall. intros p Hp. apply repeat_spec in Hp. lia.
      * intros p. destruct (Z.eq_dec p (pc + 1)) as [->|Np].
        -- rewrite count_occ_repeat_eq by reflexivity. exact Hm.
        -- rewrite count_occ_repeat_neq by exact Np. lia.
Qed.

(** The retry loop keeps the page count within a bound the service keeps. *)
Lemma retry_loop_bounded (T : Z) (retries : list Z) (pc : Z) (c c' : counters)
  (w : world) :
  (forall n usr p l results total,
      lastfm n usr p l = Reply results total -> total <= T) ->
  page_total c <= T ->
  result (retry_loop lower lastfm cfg retries pc c w) = Returned c' ->
  page_total c' <= T.
Proof.
  intros Hb. revert c w. induction retries as [|retry rest IH]; intros c w Hc.
  - rewrite retry_loop_nil. intros [= <-]. exact Hc.
  - rewrite retry_loop_cons. cbv zeta.
    destruct (lastfm (served w) (user cfg) (pc + 1) (per_page cfg))
      as [results total|e] eqn:Ereply; [|discriminate].
    apply Hb in Ereply.
    destruct (total <? 1); [discriminate|].
    destruct results as [|item items].
    + specialize (IH (Counters total (found_total c) (unknown_total c))
                     (World (S (served w)) (conn w) (pending w) (stored w))
                     Ereply).
      destruct (retry_loop lower lastfm cfg rest pc _ _) as [[o tr] w'].
      exact IH.
    + intros [= <-]. exact Ereply.
Qed.

Lemma page_loop_terminates (T : Z) (fuel : nat) (pc : Z) (c : counters)
  (w : world) :
  (forall n usr p l results total,
      lastfm n usr p l = Reply results total -> total <= T) ->
  page_total c <= T ->
  (Z.to_nat (T - pc) <= fuel)%nat ->
  result (page_loop lower lastfm cfg fuel pc c w) <> OutOfFuel.
Proof.
  intros Hb. revert pc c w. induction fuel as [|fuel IH]; intros pc c w Hc Hf;
    destruct (Z.lt_ge_cases pc (page_total c)) as [Lt|Ge];
    try (rewrite page_loop_stop by exact Ge; discriminate).
  - lia.
  - rewrite page_loop_turn by exact Lt.
    pose proof (retry_loop_invariant lower lastfm cfg
                  (range 0 (retry_limit cfg)) pc c w (range_retries cfg)) as I.
    pose proof (fun c' => retry_loop_bounded T (range 0 (retry_limit cfg))
                            pc c c' w Hb Hc) as B.
    destruct (retry_loop lower lastfm cfg (range 0 (retry_limit cfg)) pc c w)
      as [[[c1|e|] tr] w1]; unfold result in *; cbn [fst snd] in *.
    + specialize (IH (pc + 1) c1 w1 (B c1 eq_refl) ltac:(lia)).
      destruct (page_loop lower lastfm cfg fuel (pc + 1) c1 w1)
        as [[o2 tr2] w2].
      exact IH.
    + discriminate.
    + destruct I as (_ & _ & _ & _ & Nf & _). exact Nf.
Qed.

(** While the service announces more pages than asked for, the page loop
    goes on. *)
Lemma page_loop_runs_on (pages : Z -> list top_item) (total : Z -> Z)
  (fuel : nat) (pc : Z) (c : counters) (w : world) :
  (forall n p, 1 <= p ->
      lastfm n (user cfg) p (per_page cfg) = Reply (pages p) (total p)) ->
  (forall p, 1 <= p -> pages p <> [] /\ p < total p) ->
  1 <= retry_limit cfg ->
  0 <= pc < page_total c ->
  result (page_loop lower lastfm cfg fuel pc c w) = OutOfFuel.
Proof.
  intros Hsvc Hmore Hr. revert pc c w.
  induction fuel as [|fuel IH]; intros pc c w Hpc.
  - rewrite page_loop_starved by lia. reflexivity.
  - rewrite page_loop_turn by lia.
    rewrite (range_cons 0 (retry_limit cfg)) by lia.
    destruct (Hmore (pc + 1) ltac:(lia)) as [Hne Hlt].
    rewrite (retry_loop_first_try lower lastfm cfg _ _ pc _ _
               (pages (pc + 1)) (total (pc + 1)))
      by (auto; try lia; apply Hsvc; lia).
    specialize (IH (pc + 1)
                   (Counters (total (pc + 1))
                      (found_total c + len (pages (pc + 1))) (unknown_total c))
                   (World (S (served w)) (conn w)
                      (upsert_all lower (map track_of_item (pages (pc + 1)))
                         (pending w))
                      (stored w))).
    destruct (page_loop lower lastfm cfg fuel (pc + 1) _ _) as [[o2 tr2] w2].
    unfold result in *; cbn [fst snd] in *. apply IH. cbn [page_total]. lia.
Qed.

End Budget.

(** X4.  In any run, no page is requested more than [retry_limit] times,
    and no page below 1 is requested. *)
Theorem requests_per_page_bounded (lower : pystr -> pystr) (lastfm : service)
  (cfg : config) (fuel : nat) (w : world) (p : Z) :
  let reqs := requests (trace (import_lastfm lower lastfm cfg fuel w)) in
  (count_occ Z.eq_dec reqs p <= Z.to_nat (retry_limit cfg))%nat
  /\ Forall (fun q => 1 <= q) reqs.
Proof.
  intros reqs. subst reqs.
  destruct (string_dec (user cfg) "") as [Hu|Hu].
  { rewrite import_lastfm_no_user by exact Hu. unfold trace; cbn [fst snd].
    split; [simpl; lia | constructor]. }
  rewrite import_lastfm_run by exact Hu.
  pose proof (page_loop_budget lower lastfm cfg fuel 0 (Counters 1 0 0)
                (World (served w) Open (stored w) (stored w))) as B.
  destruct (page_loop lower lastfm cfg fuel 0 (Counters 1 0 0) _)
    as [[[c|e|] tr] w1]; unfold trace in *; cbn [fst snd] in *;
    destruct B as (Habove & Hcount); cbn [requests];
    rewrite ?requests_app; unfold finale; cbn [requests];
    rewrite ?app_nil_r;
    (split; [apply Hcount
            | eapply Forall_impl; [|exact Habove]; simpl; intros q Hq; lia]).
Qed.

(** X5.  When the page counts the service announces never exceed [T], the
    page loop ends within [max 1 T] turns: with that much fuel the run
    returns or raises. *)
Theorem bounded_totals_terminate (lower : pystr -> pystr) (lastfm : service)
  (cfg : config) (T : Z) (fuel : nat) (w : world) :
  (forall n usr p l results total,
      lastfm n usr p l = Reply results total -> total <= T) ->
  (Z.to_nat (Z.max 1 T) <= fuel)%nat ->
  result (import_lastfm lower lastfm cfg fuel w) <> OutOfFuel.
Proof.
  intros Hb Hf.
  destruct (string_dec (user cfg) "") as [Hu|Hu].
  { rewrite import_lastfm_no_user by exact Hu. discriminate. }
  rewrite import_lastfm_run by exact Hu.
  pose proof (page_loop_terminates lower lastfm cfg (Z.max 1 T) fuel 0
                (Counters 1 0 0)
                (World (served w) Open (stored w) (stored w))) as P.
  destruct (page_loop lower lastfm cfg fuel 0 (Counters 1 0 0) _)
    as [[[c|e|] tr] w1]; unfold result in *; cbn [fst snd] in *;
    try discriminate.
  exfalso. apply P.
  - intros n usr p l results total E. apply Hb in E. lia.
  - cbn [page_total]. lia.
  - replace (Z.max 1 T - 0) with (Z.max 1 T) by lia. exact Hf.
  - reflexivity.
Qed.

Lemma bounded_totals_terminate_witness :
  result (import_lastfm ascii_lower gap (Config "bob" 50 "db" 3) 3 (boot []))
  <> OutOfFuel.
Proof.
  apply (bounded_totals_terminate ascii_lower gap (Config "bob" 50 "db" 3) 3).
  - intros n usr p l results total [= _ <-]. lia.
  - simpl. lia.
Defined.

(** X6.  Nothing in the page loop bounds the number of pages: under a
    service that answers every page with tracks and with a page count above
    the page asked for, the run neither returns nor raises, whatever the
    fuel. *)
Theorem growing_totals_never_end (lower : pystr -> pystr) (lastfm : service)
  (cfg : config) (pages : Z -> list top_item) (total : Z -> Z) (fuel : nat)
  (w : world) :
  user cfg <> "" -> 1 <= retry_limit cfg ->
  (forall n p, 1 <= p ->
      lastfm n (user cfg) p (per_page cfg) = Reply (pages p) (total p)) ->
  (forall p, 1 <= p -> pages p <> [] /\ p < total p) ->
  result (import_lastfm lower lastfm cfg fuel w) = OutOfFuel.
Proof.
  intros Hu Hr Hsvc Hmore.
  rewrite import_lastfm_run by exact Hu.
  pose proof (page_loop_runs_on lower lastfm cfg pages total fuel 0
                (Counters 1 0 0)
                (World (served w) Open (stored w) (stored w))
                Hsvc Hmore Hr ltac:(simpl; lia)) as P.
  destruct (page_loop lower lastfm cfg fuel 0 (Counters 1 0 0) _)
    as [[[c|e|] tr] w1]; unfold result in *; cbn [fst snd] in *;
    try discriminate.
  reflexivity.
Qed.

Lemma growing_totals_never_end_witness :
  result (import_lastfm ascii_lower endless alice 7 (boot [])) = OutOfFuel.
Proof.
  apply (growing_totals_never_end ascii_lower endless alice
           (fun p => [item "Air" "Sexy Boy" p]) (fun p => p + 1)).
  - discriminate.
  - simpl. lia.
  - reflexivity.
  - intros p Hp. split; [discriminate | lia].
Defined.

(* ================================================================== *)
(** ** A page that turns up on a later attempt *)

(** X7.  When the first [j] attempts on a page get an empty track list
    (with a page count of at least 1) and the next one gets tracks, the
    retry loop returns after [j + 1] requests for that page: the tracks are
    counted and written once, and the attempts left are not used. *)
Theorem retry_recovers (lower : pystr -> pystr) (lastfm : service)
  (cfg : config) (j : nat) (retries : list Z) (pc : Z) (c : counters)
  (w : world) (results : list top_item) (total : Z) :
  (j < List.length retries)%nat ->
  (forall i, (i < j)%nat ->
     exists t, 1 <= t /\
       lastfm (served w + i)%nat (user cfg) (pc + 1) (per_page cfg) = Reply [] t) ->
  lastfm (served w + j)%nat (user cfg) (pc + 1) (per_page cfg)
  = Reply results total ->
  1 <= total -> results <> [] ->
  let x := retry_loop lower lastfm cfg retries pc c w in
  result x
  = Returned (Counters total (found_total c + len results) (unknown_total c))
  /\ requests (trace x) = repeat (pc + 1) (S j)
  /\ writes (trace x) = map (row_of_item lower) results
  /\ served (final x) = (served w + S j)%nat.
Proof.
  revert retries c w.
  induction j as [|j IH]; intros retries c w Hlen Hempty Hgood Ht Hne x;
    subst x; (destruct retries as [|retry rest]; [simpl in Hlen; lia|]).
  - rewrite Nat.add_0_r in Hgood.
    rewrite (retry_loop_first_try lower lastfm cfg retry rest pc c w
               results total Hgood Ht Hne).
    unfold result, trace, final; cbn [fst snd served requests writes].
    rewrite process_trace_requests, process_trace_writes.
    repeat split.
    + unfold row_of_item. now rewrite map_map.
    + lia.
  - destruct (Hempty O ltac:(lia)) as (t & Ht1 & Efirst).
    rewrite Nat.add_0_r in Efirst.
    rewrite retry_loop_cons. cbv zeta. rewrite Efirst.
    replace (t <? 1) with false by (symmetry; apply Z.ltb_ge; lia).
    specialize (IH rest (Counters t (found_total c) (unknown_total c))
                   (World (S (served w)) (conn w) (pending w) (stored w))).
    cbn [served found_total unknown_total] in IH.
    destruct (retry_loop lower lastfm cfg rest pc _ _) as [[o tr] w'].
    unfold result, trace, final in *; cbn [fst snd] in *.
    destruct IH as (Hr & Hq & Hw & Hs).
    + simpl in Hlen. lia.
    + intros i Hi. destruct (Hempty (S i) ltac:(lia)) as (t' & Ht' & E).
      exists t'. split; [exact Ht'|].
      rewrite <- E. f_equal. lia.
    + rewrite <- Hgood. f_equal. lia.
    + exact Ht.
    + exact Hne.
    + rewrite requests_app, writes_app, Hq, Hw, Hr, Hs.
      unfold empty_attempt.
      destruct (retry <? retry_limit cfg); cbn [requests writes app repeat];
        repeat split; lia.
Qed.

Lemma retry_recovers_witness :
  let flaky : service :=
    fun n _ _ _ => if (n <? 2)%nat then Reply [] 1
                   else Reply [item "Air" "Sexy Boy" 10] 1 in
  requests (trace (retry_loop ascii_lower flaky (Config "bob" 50 "db" 3)
                     [0; 1; 2] 0 (Counters 1 0 0) (boot [])))
  = [1; 1; 1].
Proof.
  intros flaky.
  apply (retry_recovers ascii_lower flaky (Config "bob" 50 "db" 3) 2 [0; 1; 2]
           0 (Counters 1 0 0) (boot []) [item "Air" "Sexy Boy" 10] 1).
  - simpl. lia.
  - intros i Hi. exists 1. split; [lia|].
    destruct i as [|[|i]]; [reflexivity | reflexivity | lia].
  - reflexivity.
  - lia.
  - discriminate.
Defined.

(* ================================================================== *)
(** ** Keys that meet, keys that differ *)

Lemma to_int_not_nil (z : Z) :
  Z.to_int z <> Decimal.Pos Decimal.Nil /\ Z.to_int z <> Decimal.Neg Decimal.Nil.
Proof.
  destruct z; simpl; split; try discriminate; intros [= H];
    now apply (DecimalPos.Unsigned.to_uint_nonnil p).
Qed.

(** [str] tells integers apart. *)
Lemma str_inj (a b : Z) : str a = str b -> a = b.
Proof.
  unfold str. intros H. apply (f_equal NilZero.int_of_string) in H.
  destruct (to_int_not_nil a), (to_int_not_nil b).
  rewrite !NilZero.isi in H by assumption.
  injection H as H. now apply DecimalZ.to_int_inj.
Qed.

Lemma rows_at_upsert_others (lower : pystr -> pystr) (k : row)
  (tracks : list track) (tb : table) :
  Forall (fun t => same_key k (row_of lower t) = false) tracks ->
  rows_at k (upsert_all lower tracks tb) = rows_at k tb.
Proof.
  intros H. revert tb. induction H as [|t tracks Ht _ IH]; intros tb.
  - reflexivity.
  - change (upsert_all lower (t :: tracks) tb)
      with (upsert_all lower tracks (insert_or_replace (row_of lower t) tb)).
    rewrite IH. now apply rows_at_insert_other.
Qed.

(** X8.  The key is computed from the concatenation of artist and title:
    two tracks whose lower-cased artist and title concatenate to the same
    string get the same key, and processing the second replaces the row of
    the first. *)
Theorem concatenation_collides (lower : pystr -> pystr) (t1 t2 : track) :
  lower (strip (artist t1)) ++ lower (strip (name t1))
  = lower (strip (artist t2)) ++ lower (strip (name t2)) ->
  url (row_of lower t1) = url (row_of lower t2)
  /\ forall w,
       rows_at (row_of lower t1)
               (pending (final (process_tracks lower [t1; t2] w)))
       = [row_of lower t2].
Proof.
  intros H.
  assert (fingerprint lower (strip (artist t1)) (strip (name t1))
          = fingerprint lower (strip (artist t2)) (strip (name t2))) as K.
  { unfold fingerprint. now rewrite H. }
  split.
  - unfold row_of, quicktag_row. cbn [url]. now rewrite K.
  - intros w. rewrite process_tracks_run. unfold final; cbn [snd pending].
    change (upsert_all lower [t1; t2] (pending w))
      with (insert_or_replace (row_of lower t2)
              (insert_or_replace (row_of lower t1) (pending w))).
    apply rows_at_insert_same. apply same_key_eq.
    unfold row_of, quicktag_row. cbn [url subsong fieldname].
    rewrite K. repeat split.
Qed.

Lemma concatenation_collides_witness :
  url (row_of ascii_lower (Track [] (u "A") (u "BC") 1 None))
  = url (row_of ascii_lower (Track [] (u "AB") (u "C") 2 None)).
Proof.
  apply (concatenation_collides ascii_lower
           (Track [] (u "A") (u "BC") 1 None)
           (Track [] (u "AB") (u "C") 2 None)).
  reflexivity.
Defined.

(** X9.  Tracks with different keys do not touch each other's rows: once a
    track has been processed, processing any tracks with other keys leaves
    exactly its row under its key. *)
Theorem other_keys_leave_the_row (lower : pystr -> pystr) (t : track)
  (before after : list track) (w : world) :
  Forall (fun t' =>
            fingerprint lower (strip (artist t')) (strip (name t'))
            <> fingerprint lower (strip (artist t)) (strip (name t)))
         after ->
  rows_at (row_of lower t)
          (pending (final (process_tracks lower (before ++ t :: after) w)))
  = [row_of lower t].
Proof.
  intros H. rewrite process_tracks_run. unfold final; cbn [snd pending].
  rewrite upsert_all_app.
  change (upsert_all lower (t :: after) (upsert_all lower before (pending w)))
    with (upsert_all lower after
            (insert_or_replace (row_of lower t)
               (upsert_all lower before (pending w)))).
  rewrite rows_at_upsert_others.
  - apply rows_at_insert_same, same_key_refl.
  - eapply Forall_impl; [|exact H]. cbv beta. intros t' Ht'.
    destruct (same_key (row_of lower t) (row_of lower t')) eqn:E;
      [|reflexivity].
    apply same_key_eq in E. destruct E as (E & _).
    unfold row_of, quicktag_row in E. cbn [url] in E.
    apply str_inj in E. congruence.
Qed.

Lemma other_keys_leave_the_row_witness :
  rows_at (row_of ascii_lower (Track [] (u "Air") (u "Sexy Boy") 10 None))
          (pending (final (process_tracks ascii_lower
                             ([] ++ Track [] (u "Air") (u "Sexy Boy") 10 None
                                 :: [Track [] (u "Can") (u "Vitamin C") 7 None])
                             (boot []))))
  = [row_of ascii_lower (Track [] (u "Air") (u "Sexy Boy") 10 None)].
Proof.
  apply (other_keys_leave_the_row ascii_lower
           (Track [] (u "Air") (u "Sexy Boy") 10 None) []
           [Track [] (u "Can") (u "Vitamin C") 7 None] (boot [])).
  constructor; [vm_compute; discriminate | constructor].
Defined.

(* ================================================================== *)
(** ** Surrounding whitespace *)

Lemma lstrip_spaces (l s : pystr) :
  forallb is_space l = true -> lstrip (l ++ s) = lstrip s.
Proof.
  induction l as [|c l IH]; intros H; [reflexivity|].
  simpl in H. apply andb_true_iff in H. destruct H as [Hc Hl].
  simpl. rewrite Hc. now apply IH.
Qed.

Lemma lstrip_app (s r : pystr) :
  lstrip (s ++ r) = match lstrip s with
                    | [] => lstrip r
                    | _ :: _ => lstrip s ++ r
                    end.
Proof.
  induction s as [|c s IH]; [reflexivity|].
  simpl. destruct (is_space c); [exact IH | reflexivity].
Qed.

Lemma rstrip_spaces (s r : pystr) :
  forallb is_space r = true -> rstrip (s ++ r) = rstrip s.
Proof.
  intros H. unfold rstrip. rewrite rev_app_distr, lstrip_spaces; [reflexivity|].
  apply forallb_forall. intros c Hc. apply in_rev in Hc.
  rewrite forallb_forall in H. now apply H.
Qed.

Lemma strip_padding (l s r : pystr) :
  forallb is_space l = true -> forallb is_space r = true ->
  strip (l ++ s ++ r) = strip s.
Proof.
  intros Hl Hr. unfold strip. rewrite lstrip_spaces by exact Hl.
  rewrite lstrip_app. destruct (lstrip s) as [|c s'] eqn:E.
  - rewrite <- (app_nil_r r), lstrip_spaces by exact Hr. reflexivity.
  - now apply rstrip_spaces.
Qed.

(** X10.  Whitespace around the artist and the title of a track does not
    change the row written for it. *)
Theorem padding_does_not_change_the_row (lower : pystr -> pystr) (t : track)
  (l1 r1 l2 r2 : pystr) :
  forallb is_space l1 = true -> forallb is_space r1 = true ->
  forallb is_space l2 = true -> forallb is_space r2 = true ->
  row_of lower (Track (mbid t) (l1 ++ artist t ++ r1) (l2 ++ name t ++ r2)
                      (playcount t) (album t))
  = row_of lower t.
Proof.
  intros H1 H2 H3 H4. unfold row_of. cbn [artist name playcount].
  now rewrite !strip_padding.
Qed.

Lemma padding_does_not_change_the_row_witness :
  row_of ascii_lower (Track [] (u "  " ++ u "Air" ++ u " ")
                            (u "" ++ u "Sexy Boy" ++ u "  ") 10 None)
  = row_of ascii_lower (Track [] (u "Air") (u "Sexy Boy") 10 None).
Proof.
  apply (padding_does_not_change_the_row ascii_lower
           (Track [] (u "Air") (u "Sexy Boy") 10 None)
           (u "  ") (u " ") (u "") (u "  "));
    reflexivity.
Defined.

(* ================================================================== *)
(** ** The mask *)

(** X11.  The mask [& 0xffffffff] makes the key the unsigned CRC-32
    whether [crc32] returns it unsigned (Python 3) or signed (Python 2). *)
Theorem key_is_the_unsigned_crc (lower : pystr -> pystr) (a t : pystr) :
  fingerprint lower a t = crc32 (encode_utf8 (lower a ++ lower t))
  /\ Z.land (crc32_signed (encode_utf8 (lower a ++ lower t))) 0xffffffff
     = fingerprint lower a t.
Proof.
  destruct (mask_crc32 (encode_utf8 (lower a ++ lower t))
              (encode_utf8_octets _)) as [U S].
  unfold fingerprint. cbv zeta. rewrite U, S. split; reflexivity.
Qed.

(* ================================================================== *)
(** ** A negative retry limit *)

(** X12.  A negative [retry_limit] works as 0 does: the run asks the
    service nothing, writes nothing, and still prompts, commits, closes
    and reports 0 and 0. *)
Theorem negative_retry_limit_fetches_nothing (lower : pystr -> pystr)
  (lastfm : service) (cfg : config) (fuel : nat) (w : world) :
  user cfg <> "" -> retry_limit cfg < 0 -> (1 <= fuel)%nat ->
  import_lastfm lower lastfm cfg fuel w =
  (Returned tt,
   Log Info (MsgFetching (user cfg))
     :: Connect (sqlite3_custom_db cfg)
     :: Log Info (MsgQuerying 1 None)
     :: finale (Counters 1 0 0),
   World (served w) Closed (stored w) (stored w)).
Proof.
  intros Hu Hr Hf.
  rewrite import_lastfm_run by exact Hu.
  destruct fuel as [|fuel]; [lia|].
  rewrite page_loop_turn by (simpl; lia).
  rewrite range_empty by lia.
  rewrite retry_loop_nil.
  rewrite page_loop_stop by (simpl; lia).
  reflexivity.
Qed.

Lemma negative_retry_limit_fetches_nothing_witness :
  requests (trace (import_lastfm ascii_lower sexy_boy
                     (Config "alice" 2 "quicktag.db" (-1)) 1 (boot []))) = [].
Proof.
  rewrite (negative_retry_limit_fetches_nothing ascii_lower sexy_boy
             (Config "alice" 2 "quicktag.db" (-1)) 1 (boot []));
    [ reflexivity | discriminate | reflexivity | lia ].
Defined.


(* ================================================================== *)
(** ** Last write wins, run by run *)

Lemma rows_at_insert (k r : row) (tb : table) :
  rows_at k (insert_or_replace r tb)
  = if same_key k r then [r] else rows_at k tb.
Proof.
  destruct (same_key k r) eqn:E.
  - now apply rows_at_insert_same.
  - now apply rows_at_insert_other.
Qed.

Lemma rows_at_replay (k : row) (rows : list row) (tb : table) :
  rows_at k (replay rows tb)
  = match last_at k rows with
    | Some r => [r]
    | None => rows_at k tb
    end.
Proof.
  revert tb. induction rows as [|r rows IH]; intros tb; [reflexivity|].
  change (replay (r :: rows) tb) with (replay rows (insert_or_replace r tb)).
  rewrite IH. cbn [last_at].
  destruct (last_at k rows); [reflexivity|].
  rewrite rows_at_insert. destruct (same_key k r); reflexivity.
Qed.

(** X13.  After a run that returns, the stored table holds under each key
    exactly the last row the run wrote under that key, and what it held
    before the run under the keys the run did not write. *)
Theorem last_write_wins_per_key (lower : pystr -> pystr) (lastfm : service)
  (cfg : config) (fuel : nat) (w : world) (k : row) :
  let x := import_lastfm lower lastfm cfg fuel w in
  result x = Returned tt ->
  rows_at k (stored (final x))
  = match last_at k (writes (trace x)) with
    | Some r => [r]
    | None => rows_at k (stored w)
    end.
Proof.
  intros x R. subst x.
  rewrite (returned_run_stored lower lastfm cfg fuel w R).
  apply rows_at_replay.
Qed.

Lemma last_write_wins_per_key_witness :
  rows_at (Row "3242576478" "-1" "LASTFM_PLAYCOUNT_DB" "")
          (stored (final (import_lastfm ascii_lower sexy_boy alice 1 (boot []))))
  = [Row "3242576478" "-1" "LASTFM_PLAYCOUNT_DB" "10"].
Proof.
  rewrite (last_write_wins_per_key ascii_lower sexy_boy alice 1 (boot []));
    reflexivity.
Defined.

Section Stationary.

Variable lower : pystr -> pystr.
Variable lastfm : service.
Variable cfg : config.

(** The replies do not depend on how many requests came before. *)
Hypothesis stationary : forall n m usr p l, lastfm n usr p l = lastfm m usr p l.

Lemma retry_loop_stationary (retries : list Z) (pc : Z) (c : counters)
  (w w' : world) :
  result (retry_loop lower lastfm cfg retries pc c w)
  = result (retry_loop lower lastfm cfg retries pc c w')
  /\ trace (retry_loop lower lastfm cfg retries pc c w)
     = trace (retry_loop lower lastfm cfg retries pc c w').
Proof.
  revert c w w'. induction retries as [|retry rest IH]; intros c w w'.
  - split; reflexivity.
  - rewrite !retry_loop_cons. cbv zeta.
    rewrite (stationary (served w') (served w)).
    destruct (lastfm (served w) (user cfg) (pc + 1) (per_page cfg))
      as [results total|e]; [|split; reflexivity].
    destruct (total <? 1); [split; reflexivity|].
    destruct results as [|item items]; [|split; reflexivity].
    specialize (IH (Counters total (found_total c) (unknown_total c))
                   (World (S (served w)) (conn w) (pending w) (stored w))
                   (World (S (served w')) (conn w') (pending w') (stored w'))).
    destruct (retry_loop lower lastfm cfg rest pc _
                (World (S (served w)) _ _ _)) as [[o tr] w1].
    destruct (retry_loop lower lastfm cfg rest pc _
                (World (S (served w')) _ _ _)) as [[o' tr'] w1'].
    unfold result, trace in *; cbn [fst snd] in *.
    destruct IH as [-> ->]. split; reflexivity.
Qed.

Lemma page_loop_stationary (fuel : nat) (pc : Z) (c : counters) (w w' : world) :
  result (page_loop lower lastfm cfg fuel pc c w)
  = result (page_loop lower lastfm cfg fuel pc c w')
  /\ trace (page_loop lower lastfm cfg fuel pc c w)
     = trace (page_loop lower lastfm cfg fuel pc c w').
Proof.
  revert pc c w w'. induction fuel as [|fuel IH]; intros pc c w w';
    destruct (Z.lt_ge_cases pc (page_total c)) as [Lt|Ge];
    try (rewrite !page_loop_stop by exact Ge; split; reflexivity).
  - rewrite !page_loop_starved by exact Lt. split; reflexivity.
  - rewrite !page_loop_turn by exact Lt.
    pose proof (retry_loop_stationary (range 0 (retry_limit cfg)) pc c w w')
      as R.
    destruct (retry_loop lower lastfm cfg (range 0 (retry_limit cfg)) pc c w)
      as [[o tr] w1].
    destruct (retry_loop lower lastfm cfg (range 0 (retry_limit cfg)) pc c w')
      as [[o' tr'] w1'].
    unfold result, trace in *; cbn [fst snd] in *.
    destruct R as [<- <-].
    destruct o as [c1|e|]; try (split; reflexivity).
    specialize (IH (pc + 1) c1 w1 w1').
    destruct (page_loop lower lastfm cfg fuel (pc + 1) c1 w1)
      as [[o2 tr2] w2].
    destruct (page_loop lower lastfm cfg fuel (pc + 1) c1 w1')
      as [[o2' tr2'] w2'].
    cbn [fst snd] in *. destruct IH as [-> ->]. split; reflexivity.
Qed.

Lemma import_lastfm_stationary (fuel : nat) (w w' : world) :
  result (import_lastfm lower lastfm cfg fuel w)
  = result (import_lastfm lower lastfm cfg fuel w')
  /\ trace (import_lastfm lower lastfm cfg fuel w)
     = trace (import_lastfm lower lastfm cfg fuel w').
Proof.
  destruct (string_dec (user cfg) "") as [Hu|Hu].
  { rewrite !import_lastfm_no_user by exact Hu. split; reflexivity. }
  rewrite !import_lastfm_run by exact Hu.
  pose proof (page_loop_stationary fuel 0 (Counters 1 0 0)
                (World (served w) Open (stored w) (stored w))
                (World (served w') Open (stored w') (stored w'))) as P.
  destruct (page_loop lower lastfm cfg fuel 0 (Counters 1 0 0)
              (World (served w) _ _ _)) as [[o tr] w1].
  destruct (page_loop lower lastfm cfg fuel 0 (Counters 1 0 0)
              (World (served w') _ _ _)) as [[o' tr'] w1'].
  unfold result, trace in *; cbn [fst snd] in *.
  destruct P as [<- <-].
  destruct o; split; reflexivity.
Qed.

End Stationary.

(** X14.  Importing twice is importing once: when the replies of the
    service do not change, a second run on the table a first run left
    returns as well and leaves under every key the rows the first run
    left. *)
Theorem second_run_changes_nothing (lower : pystr -> pystr) (lastfm : service)
  (cfg : config) (fuel : nat) (w : world) (k : row) :
  (forall n m usr p l, lastfm n usr p l = lastfm m usr p l) ->
  let first := import_lastfm lower lastfm cfg fuel w in
  let second := import_lastfm lower lastfm cfg fuel (final first) in
  result first = Returned tt ->
  result second = Returned tt
  /\ rows_at k (stored (final second)) = rows_at k (stored (final first)).
Proof.
  intros Hs first second R.
  destruct (import_lastfm_stationary lower lastfm cfg Hs fuel w (final first))
    as [Er Et].
  fold first in Er, Et. fold second in Er, Et.
  assert (result second = Returned tt) as R2 by congruence.
  split; [exact R2|].
  pose proof (returned_run_stored lower lastfm cfg fuel (final first) R2) as L2.
  pose proof (returned_run_stored lower lastfm cfg fuel w R) as L1.
  fold first in L1. fold second in L2.
  rewrite L2, <- Et, rows_at_replay.
  destruct (last_at k (writes (trace first))) as [r|] eqn:E.
  - rewrite L1, rows_at_replay, E. reflexivity.
  - reflexivity.
Qed.

Lemma second_run_changes_nothing_witness :
  stored (final (import_lastfm ascii_lower sexy_boy alice 1
                   (final (import_lastfm ascii_lower sexy_boy alice 1 (boot [])))))
  = [Row "3242576478" "-1" "LASTFM_PLAYCOUNT_DB" "10"]
  /\ rows_at (Row "3242576478" "-1" "LASTFM_PLAYCOUNT_DB" "")
       (stored (final (import_lastfm ascii_lower sexy_boy alice 1
                         (final (import_lastfm ascii_lower sexy_boy alice 1
                                   (boot []))))))
     = rows_at (Row "3242576478" "-1" "LASTFM_PLAYCOUNT_DB" "")
         (stored (final (import_lastfm ascii_lower sexy_boy alice 1 (boot [])))).
Proof.
  split; [vm_compute; reflexivity|].
  apply (second_run_changes_nothing ascii_lower sexy_boy alice 1 (boot [])).
  - reflexivity.
  - reflexivity.
Defined.

(* ================================================================== *)
(** ** What the events of a run look like *)

Section Sound.

Variable lower : pystr -> pystr.
Variable lastfm : service.
Variable cfg : config.

Lemma process_trace_sound (tracks : list track) :
  Forall (sound_event cfg) (process_trace lower tracks).
Proof.
  unfold process_trace. induction tracks as [|t tracks IH]; simpl.
  - constructor.
  - repeat (constructor; [exact I|]). exact IH.
Qed.

Lemma retry_loop_sound (retries : list Z) (pc : Z) (c : counters) (w : world) :
  0 <= pc ->
  Forall (sound_event cfg) (trace (retry_loop lower lastfm cfg retries pc c w)).
Proof.
  intros Hpc. revert c w. induction retries as [|retry rest IH]; intros c w.
  - constructor.
  - rewrite retry_loop_cons. cbv zeta.
    destruct (lastfm (served w) (user cfg) (pc + 1) (per_page cfg))
      as [results total|e].
    2:{ unfold trace; cbn [fst snd]. repeat constructor. lia. }
    destruct (total <? 1).
    { unfold trace; cbn [fst snd]. repeat constructor. lia. }
    destruct results as [|item items].
    + specialize (IH (Counters total (found_total c) (unknown_total c))
                     (World (S (served w)) (conn w) (pending w) (stored w))).
      destruct (retry_loop lower lastfm cfg rest pc _ _) as [[o tr] w'].
      unfold trace in *; cbn [fst snd] in *.
      apply Forall_app. split; [|exact IH].
      unfold empty_attempt.
      destruct (retry <? retry_limit cfg); repeat constructor; lia.
    + unfold trace; cbn [fst snd].
      constructor; [split; [lia | reflexivity]|].
      constructor; [|apply process_trace_sound].
      cbn [sound_event map]. rewrite len_cons.
      pose proof (len_nonneg (map track_of_item items)). lia.
Qed.

Lemma page_loop_sound (fuel : nat) (pc : Z) (c : counters) (w : world) :
  0 <= pc ->
  Forall (sound_event cfg) (trace (page_loop lower lastfm cfg fuel pc c w)).
Proof.
  revert pc c w. induction fuel as [|fuel IH]; intros pc c w Hpc;
    destruct (Z.lt_ge_cases pc (page_total c)) as [Lt|Ge];
    try (rewrite page_loop_stop by exact Ge; constructor).
  - rewrite page_loop_starved by exact Lt. constructor.
  - rewrite page_loop_turn by exact Lt.
    pose proof (retry_loop_sound (range 0 (retry_limit cfg)) pc c w Hpc) as R.
    destruct (retry_loop lower lastfm cfg (range 0 (retry_limit cfg)) pc c w)
      as [[[c1|e|] tr] w1]; unfold trace in *; cbn [fst snd] in *.
    + specialize (IH (pc + 1) c1 w1 ltac:(lia)).
      destruct (page_loop lower lastfm cfg fuel (pc + 1) c1 w1)
        as [[o2 tr2] w2].
      cbn [fst snd] in *.
      constructor; [simpl; lia|]. apply Forall_app. now split.
    + constructor; [simpl; lia | exact R].
    + constructor; [simpl; lia | exact R].
Qed.

End Sound.

(** X15.  In any run every request asks for a page from 1 on with the
    configured page size, and [process_tracks] is only ever given a page
    with at least one track: every "Received n tracks" message has
    [n >= 1]. *)
Theorem run_events_are_sound (lower : pystr -> pystr) (lastfm : service)
  (cfg : config) (fuel : nat) (w : world) :
  let tr := trace (import_lastfm lower lastfm cfg fuel w) in
  (forall page limit r,
      In (Request page limit r) tr -> 1 <= page /\ limit = per_page cfg)
  /\ (forall l n, In (Log l (MsgReceived n)) tr -> 1 <= n).
Proof.
  intros tr.
  assert (Forall (sound_event cfg) tr) as S.
  { subst tr. destruct (string_dec (user cfg) "") as [Hu|Hu].
    { rewrite import_lastfm_no_user by exact Hu. constructor. }
    rewrite import_lastfm_run by exact Hu.
    pose proof (page_loop_sound lower lastfm cfg fuel 0 (Counters 1 0 0)
                  (World (served w) Open (stored w) (stored w)) ltac:(lia))
      as P.
    destruct (page_loop lower lastfm cfg fuel 0 (Counters 1 0 0) _)
      as [[[c|e|] tr] w1]; unfold trace in *; cbn [fst snd] in *;
      repeat (constructor; [exact I|]); try exact P.
    apply Forall_app. split; [exact P|].
    unfold finale. repeat (constructor; [exact I|]). constructor. }
  rewrite Forall_forall in S. split.
  - intros page limit r Hin. apply (S _ Hin).
  - intros l n Hin. apply (S _ Hin).
Qed.

Lemma run_events_are_sound_witness :
  1 <= 2 /\ 50 = per_page (Config "bob" 50 "db" 3).
Proof.
  destruct (run_events_are_sound ascii_lower gap (Config "bob" 50 "db" 3) 3
              (boot [])) as (Req & _).
  apply (Req 2 50 (Reply [] 3)).
  vm_compute. tauto.
Defined.
